(** * violetear: an HTTP router over a trie of path segments

    A shallow embedding of [violetear.go] (package [violetear]): the path
    segmenter [splitPath], the version extraction done by [ServeHTTP], the
    method table scan [checkMethod], the recursive matcher [match] and the
    route registration [Handle].

    Go strings are sequences of bytes; they are embedded as [string], whose
    characters ([ascii]) are the 256 byte values.  Every separator the router
    looks for ('/', '#', ':', '*', ',') is an ASCII byte, and no ASCII byte
    occurs inside a multi-byte UTF-8 sequence, so scanning bytes and scanning
    runes find the same separators. *)

From Stdlib Require Import ZArith Lia Ascii.
From stdpp Require Import base option list strings gmap.

Local Open Scope Z_scope.

(** ** The parts of Go's [strings] package the router calls *)

Module strings.

(** [strings.HasPrefix(s, prefix)]. *)
Fixpoint HasPrefix (s prefix : string) : bool :=
  match prefix, s with
  | "", _ => true
  | String a prefix', String b s' =>
      if Ascii.eqb a b then HasPrefix s' prefix' else false
  | String _ _, "" => false
  end.

(** [len(s)], as a Go [int]. *)
Definition len (s : string) : Z := Z.of_nat (String.length s).

(** The slice expression [s[n:]] for [0 <= n <= len(s)]. *)
Fixpoint slice_from (n : nat) (s : string) : string :=
  match n, s with
  | O, _ => s
  | S n', String _ s' => slice_from n' s'
  | S _, "" => ""
  end.

(** The slice expression [s[:n]] for [0 <= n <= len(s)]. *)
Fixpoint slice_to (n : nat) (s : string) : string :=
  match n, s with
  | O, _ => ""
  | S n', String a s' => String a (slice_to n' s')
  | S _, "" => ""
  end.

(** [strings.Index(s, substr)]: the offset of the first instance of
    [substr] in [s], or -1.  [i] is the offset of [s] in the string the
    search started from. *)
Fixpoint Index_from (i : Z) (s substr : string) : Z :=
  if HasPrefix s substr then i
  else match s with
       | "" => -1
       | String _ s' => Index_from (i + 1) s' substr
       end.

Definition Index (s substr : string) : Z := Index_from 0 s substr.

(** [strings.LastIndex(s, substr)]: the offset of the last instance of
    [substr] in [s], or -1.  [last] is the offset of the latest instance
    seen so far. *)
Fixpoint LastIndex_from (i last : Z) (s substr : string) : Z :=
  let last' := if HasPrefix s substr then i else last in
  match s with
  | "" => last'
  | String _ s' => LastIndex_from (i + 1) last' s' substr
  end.

Definition LastIndex (s substr : string) : Z := LastIndex_from 0 (-1) s substr.

(** [strings.FieldsFunc(s, f)]: the maximal runs of characters that do not
    satisfy [f].  [cur] is the field being read ([start >= 0] in Go's
    loop), [None] between fields. *)
Fixpoint FieldsFunc_loop (f : ascii -> bool) (cur : option string) (s : string)
  : list string :=
  match s with
  | "" => match cur with Some w => [w] | None => [] end
  | String c s' =>
      if f c then
        match cur with
        | Some w => w :: FieldsFunc_loop f None s'
        | None => FieldsFunc_loop f None s'
        end
      else
        FieldsFunc_loop f
          (Some (match cur with Some w => w +:+ String c "" | None => String c "" end)) s'
  end.

Definition FieldsFunc (s : string) (f : ascii -> bool) : list string :=
  FieldsFunc_loop f None s.

(** White space as [unicode.IsSpace] defines it, read off the UTF-8 bytes:
    the six ASCII blanks, U+0085 and U+00A0 (two bytes), and U+1680,
    U+2000..U+200A, U+2028, U+2029, U+202F, U+205F, U+3000 (three bytes).
    [space_width s] is the width of the white-space rune [s] starts with. *)
Definition ascii_space (c : ascii) : bool :=
  let n := N_of_ascii c in
  ((9 <=? n) && (n <=? 13) || (n =? 32))%N.

Definition space_width (s : string) : option nat :=
  match s with
  | "" => None
  | String c s1 =>
      if ascii_space c then Some 1%nat
      else
        match N_of_ascii c, s1 with
        | 194%N, String d _ =>
            let m := N_of_ascii d in
            if ((m =? 133) || (m =? 160))%N then Some 2%nat else None
        | 225%N, String d (String e _) =>
            if ((N_of_ascii d =? 154) && (N_of_ascii e =? 128))%N
            then Some 3%nat else None
        | 226%N, String d (String e _) =>
            let m := N_of_ascii d in
            let k := N_of_ascii e in
            if ((m =? 128) && ((128 <=? k) && (k <=? 138) || (k =? 168)
                               || (k =? 169) || (k =? 175))
                || (m =? 129) && (k =? 159))%N
            then Some 3%nat else None
        | 227%N, String d (String e _) =>
            if ((N_of_ascii d =? 128) && (N_of_ascii e =? 128))%N
            then Some 3%nat else None
        | _, _ => None
        end
  end.

(** [strings.TrimSpace(s)] is empty exactly when [s] is a sequence of
    white-space runes; that is all [Handle] asks of it
    ([len(strings.TrimSpace(m)) > 0]).  The fuel is the number of bytes
    left, which every rune consumes at least one of. *)
Fixpoint all_space (fuel : nat) (s : string) : bool :=
  match s with
  | "" => true
  | String _ _ =>
      match fuel, space_width s with
      | S fuel', Some w => all_space fuel' (slice_from w s)
      | _, _ => false
      end
  end.

Definition TrimSpace_nonempty (s : string) : bool :=
  negb (all_space (String.length s) s).

End strings.

(** ** splitPath *)

(** [splitPath]: the fields between slashes, or the root token when there is
    none. *)
Definition splitPath (p : string) : list string :=
  let pathParts := strings.FieldsFunc p (fun c => Ascii.eqb c "/") in
  match pathParts with
  | [] => ["/"]
  | _ :: _ => pathParts
  end.

(** The specification's wording of the segmenter: cut the string at every
    '/' (keeping empty pieces), then keep the non-empty pieces. *)
Fixpoint split_at (sep : ascii) (s : string) : list string :=
  match s with
  | "" => [""]
  | String c s' =>
      if Ascii.eqb c sep then "" :: split_at sep s'
      else match split_at sep s' with
           | w :: ws => String c w :: ws
           | [] => [String c ""]
           end
  end.

Definition nonempty_tokens (p : string) : list string :=
  filter (fun w => w <> "") (split_at "/" p).

Definition splitPath_spec (p : string) : list string :=
  match nonempty_tokens p with
  | [] => ["/"]
  | w :: ws => w :: ws
  end.

(** Joining pieces with a separator, the inverse of [split_at]. *)
Fixpoint join (sep : ascii) (ws : list string) : string :=
  match ws with
  | [] => ""
  | [w] => w
  | w :: ws' => w +:+ String sep (join sep ws')
  end.

(** No character of [s] is [c]. *)
Fixpoint free_of (c : ascii) (s : string) : bool :=
  match s with
  | "" => true
  | String a s' => negb (Ascii.eqb a c) && free_of c s'
  end.

(** Every character of [s] is [c]. *)
Fixpoint only (c : ascii) (s : string) : bool :=
  match s with
  | "" => true
  | String a s' => Ascii.eqb a c && only c s'
  end.

(** ** Data model *)

(** An [http.Handler].  Handlers are opaque to the router, which only stores
    them and hands them back; a registered handler is identified by a
    number.  The two defaults are the values of [http.NotFoundHandler()]
    and of the router method [MethodNotAllowed()]. *)
Inductive http_Handler : Type :=
| UserHandler (id : nat)
| http_NotFoundHandler
| MethodNotAllowed.

(** A compiled [*regexp.Regexp], identified with the set of strings that
    [MatchString] accepts. *)
Definition Regexp : Type := string -> bool.

Definition MatchString (rx : Regexp) (s : string) : bool := rx s.

(** Modelled from the spec: the type [MethodHandler] is declared outside
    violetear.go, which reads its fields [Method] and [Handler]; the
    specification's handler-table entry is [{method, version, handler}]. *)
Module MethodHandler.
Record t : Type := mk {
  Method : string;
  Version : string;
  Handler : http_Handler
}.
End MethodHandler.

(** Modelled from the spec: the type [Trie] is declared outside
    violetear.go, which reads its fields [Handler], [HasCatchall],
    [HasRegex], [Node] and [path].  A node owns the ordered list of its
    children and its handler table. *)
#[warnings="-register-all"]
Inductive Trie : Type := mkTrie {
  Handler : list MethodHandler.t;
  HasCatchall : bool;
  HasRegex : bool;
  Node : list Trie;
  path : string
}.

(** Modelled from the spec: the type [Params] and its method [Add] are
    declared outside violetear.go.  Params is an ordered sequence of
    [(name, value)] pairs and [Add] returns the sequence with one pair
    appended. *)
Definition Params : Type := list (string * string).

Definition Params_Add (p : Params) (k v : string) : Params := p ++ [(k, v)].

(** Modelled from the spec: the type [dynamicSet] is declared outside
    violetear.go; it maps a dynamic segment name to its compiled pattern. *)
Abbreviation dynamicSet := (gmap string Regexp).

(** The fields of [Router] that registration and matching read. *)
Record Router : Type := mkRouter {
  dynamicRoutes : dynamicSet;
  routes : Trie;
  LogRequests : bool;
  NotFoundHandler : option http_Handler;
  NotAllowedHandler : option http_Handler;
  RequestID : string;
  Verbose : bool
}.

Definition set_routes (v : Router) (t : Trie) : Router :=
  mkRouter (dynamicRoutes v) t (LogRequests v) (NotFoundHandler v)
           (NotAllowedHandler v) (RequestID v) (Verbose v).

(** [New()]. *)
Definition New : Router :=
  mkRouter ∅ (mkTrie [] false false [] "") false None None "" true.

(** The number of nodes on the longest downward branch. *)
Fixpoint height (t : Trie) : nat :=
  S ((fix go (l : list Trie) : nat :=
        match l with
        | [] => O
        | n :: l' => Nat.max (height n) (go l')
        end) (Node t)).

(** [sub t' t]: [t'] lies strictly below [t]. *)
Inductive sub : Trie -> Trie -> Prop :=
| sub_child n t : In n (Node t) -> sub n t
| sub_deeper t' n t : In n (Node t) -> sub t' n -> sub t' t.

(** Every dynamic child, at every depth, has its pattern in the registry;
    [Handle] refuses the routes that would break this. *)
Fixpoint registered (dyn : dynamicSet) (t : Trie) : bool :=
  (fix go (l : list Trie) : bool :=
     match l with
     | [] => true
     | n :: l' =>
         (if strings.HasPrefix (path n) ":" then bool_decide (is_Some (dyn !! path n))
          else true)
         && registered dyn n && go l'
     end) (Node t).

(** ** Method resolution *)

(** What ends a call of [match] other than a return. *)
Inductive panic : Type :=
| IndexOutOfRange      (* [path[0]] on an empty slice *)
| NilDereference.      (* [MatchString] on the nil pattern of an absent key *)

Inductive outcome (A : Type) : Type :=
| Returns (a : A)
| Panics (k : panic)
| OutOfFuel.

Arguments Returns {A} a.
Arguments Panics {A} k.
Arguments OutOfFuel {A}.

(** The loop of [checkMethod] over [node.Handler]. *)
Fixpoint checkMethod_loop (hs : list MethodHandler.t) (method : string)
  : option http_Handler :=
  match hs with
  | [] => None
  | h :: hs' =>
      if String.eqb (MethodHandler.Method h) "ALL" then Some (MethodHandler.Handler h)
      else if String.eqb (MethodHandler.Method h) method then Some (MethodHandler.Handler h)
      else checkMethod_loop hs' method
  end.

(** The responder for a method that is not allowed. *)
Definition notAllowed (v : Router) : http_Handler :=
  match NotAllowedHandler v with
  | Some h => h
  | None => MethodNotAllowed
  end.

Definition checkMethod (v : Router) (node : Trie) (method : string) : http_Handler :=
  match checkMethod_loop (Handler node) method with
  | Some h => h
  | None => notAllowed v
  end.

(** The responder for a path that matches no route. *)
Definition notFound (v : Router) : http_Handler :=
  match NotFoundHandler v with
  | Some h => h
  | None => http_NotFoundHandler
  end.

(** ** The matcher and the registration, over the trie operations

    [Trie.Get] and [Trie.Set] are methods declared outside violetear.go.
    The code of this file is embedded over any pair of them: [Get] returns
    the node, the remaining path and the leaf flag ([match] and [ServeHTTP]
    drop its error), [Set] the error and the trie it leaves behind. *)

Inductive error : Type :=
| ErrDynamicNotFound (p : string)   (* "[p] not found, need to add it using AddRegex" *)
| ErrTrie (msg : string).           (* an error of [Trie.Set] *)

(** How the loop over the dynamic children ends. *)
Inductive probe : Type :=
| Hit (n : Trie) (seg : string) (rest : list string)
| Miss
| Fault (k : panic).

(** The return statement that ends one call of [match]. *)
Inductive branch : Type :=
| ExactLeaf    (* line 175 *)
| CatchAll     (* line 200 *)
| NoRoute.     (* lines 206 and 208 *)

(** One call of [match] up to its return or its recursive call. *)
Inductive step : Type :=
| Done (b : branch) (h : http_Handler) (params : Params)
| Descend (node : Trie) (p : list string) (leaf : bool) (params : Params)
| Crash (k : panic).

(** The loop of lines 177-188: the children whose token starts with ":" are
    tried in order against [path[0]]. *)
Fixpoint tryDynamic (dyn : dynamicSet) (children : list Trie) (p : list string)
  : probe :=
  match children with
  | [] => Miss
  | n :: children' =>
      if strings.HasPrefix (path n) ":" then
        match p with
        | [] => Fault IndexOutOfRange
        | seg :: rest =>
            match dyn !! path n with
            | None => Fault NilDereference
            | Some rx =>
                if MatchString rx seg then Hit n seg rest
                else tryDynamic dyn children' p
            end
        end
      else tryDynamic dyn children' p
  end.

(** The loop of lines 196-202: the first child whose token is "*". *)
Fixpoint findCatchall (children : list Trie) : option Trie :=
  match children with
  | [] => None
  | n :: children' =>
      if String.eqb (path n) "*" then Some n else findCatchall children'
  end.

(** The first path part that starts with ":" and is not a key of the
    registry (the loop of lines 111-117). *)
Fixpoint unknownDynamic (dyn : dynamicSet) (pathParts : list string) : option string :=
  match pathParts with
  | [] => None
  | p :: pathParts' =>
      if strings.HasPrefix p ":" then
        match dyn !! p with
        | None => Some p
        | Some _ => unknownDynamic dyn pathParts'
        end
      else unknownDynamic dyn pathParts'
  end.

Definition versionHeader : string := "application/vnd.".

(** Lines 237-243 of [ServeHTTP]: the version named by the Accept header. *)
Definition requestVersion (accept : string) : string :=
  let i := strings.LastIndex accept versionHeader in
  if negb (i =? -1) then
    strings.slice_from (Z.to_nat (strings.len versionHeader + i)) accept
  else "".

(** Lines 104-107 of [Handle]: the version after the first "#", and the path
    before it. *)
Definition cutVersion (pth : string) : string * string :=
  let i := strings.Index pth "#" in
  if negb (i =? -1) then
    (strings.slice_from (Z.to_nat (i + 1)) pth, strings.slice_to (Z.to_nat i) pth)
  else ("", pth).

(** Lines 119-123 of [Handle]. *)
Definition methodsOf (httpMethods : list string) : string :=
  match httpMethods with
  | m :: _ => if strings.TrimSpace_nonempty m then m else "ALL"
  | [] => "ALL"
  end.

Section Embedding.

Variable Get : Trie -> list string -> string -> Trie * list string * bool.
Variable Set_ : Trie -> list string -> http_Handler -> string -> string
                -> option error * Trie.

(** Lines 195-208: the catch-all loop when [catchall] is set, then the
    NotFound return. *)
Definition fallback (v : Router) (node : Trie) (p : list string)
    (params : Params) (method : string) (catchall : bool) : step :=
  match (if catchall then findCatchall (Node node) else None) with
  | Some n =>
      match p with
      | seg :: _ => Done CatchAll (checkMethod v n method) (Params_Add params "*" seg)
      | [] => Crash IndexOutOfRange
      end
  | None => Done NoRoute (notFound v) params
  end.

(** One call of [match] (lines 173-208).  The assignment [path[0] = n.path]
    gives the path whose first segment is the token of the child. *)
Definition match_step (v : Router) (node : Trie) (p : list string)
    (leaf : bool) (params : Params) (method version : string) : step :=
  if (0 <? Z.of_nat (length (Handler node))) && leaf then
    Done ExactLeaf (checkMethod v node method) params
  else if HasRegex node then
    match tryDynamic (dynamicRoutes v) (Node node) p with
    | Hit n seg rest =>
        let params := Params_Add params (path n) seg in
        let '(node', p', leaf') := Get node (path n :: rest) version in
        Descend node' p' leaf' params
    | Fault k => Crash k
    | Miss => fallback v node p params method (HasCatchall node)
    end
  else fallback v node p params method (HasCatchall node).

(** [match]; the fuel bounds the depth of the recursion. *)
Fixpoint match_ (fuel : nat) (v : Router) (node : Trie) (p : list string)
    (leaf : bool) (params : Params) (method version : string)
  : outcome (http_Handler * Params) :=
  match fuel with
  | O => OutOfFuel
  | S fuel' =>
      match match_step v node p leaf params method version with
      | Done _ h params' => Returns (h, params')
      | Descend node' p' leaf' params' =>
          match_ fuel' v node' p' leaf' params' method version
      | Crash k => Panics k
      end
  end.

(** [Handle] (lines 102-133).  The router's operations pass the router
    along: [Handle] may change it, a lookup hands it back.  The line that
    [Verbose] makes it print goes to the process log, which is no part of
    the router. *)
Definition Handle (pth : string) (handler : http_Handler)
    (httpMethods : list string) (v : Router) : option error * Router :=
  let '(version, pth) := cutVersion pth in
  let pathParts := splitPath pth in
  match unknownDynamic (dynamicRoutes v) pathParts with
  | Some p => (Some (ErrDynamicNotFound p), v)
  | None =>
      let methods := methodsOf httpMethods in
      let '(err, t) := Set_ (routes v) pathParts handler methods version in
      (err, set_routes v t)
  end.

(** Lines 246-249 of [ServeHTTP]: the handler and the parameters of a
    request path, method and version. *)
Definition Match (fuel : nat) (urlPath method version : string) (v : Router)
  : outcome (http_Handler * Params) * Router :=
  let '(node, p, leaf) := Get (routes v) (splitPath urlPath) version in
  (match_ fuel v node p leaf [] method version, v).

(** Lines 237-249 of [ServeHTTP]. *)
Definition ServeHTTP_resolve (fuel : nat) (urlPath method accept : string)
    (v : Router) : outcome (http_Handler * Params) * Router :=
  Match fuel urlPath method (requestVersion accept) v.

End Embedding.

(** ** The trie operations, as the specification describes them *)

(** The child of a node that carries a token. *)
Fixpoint contains (children : list Trie) (key : string) : option Trie :=
  match children with
  | [] => None
  | n :: children' =>
      if String.eqb (path n) key then Some n else contains children' key
  end.

(** Modelled from the spec: [Trie.Get] (the specification's Resolve) is
    declared outside violetear.go.  It descends through the children whose
    token equals the next segment, stops at the deepest node reached that
    way and reports whether the whole sequence was consumed.  The remainder
    starts at the last segment it examined, so it is empty only for an
    empty path, which [ServeHTTP] never passes.  The version does not take
    part in the descent. *)
Fixpoint Trie_Get (t : Trie) (p : list string) (version : string)
  : Trie * list string * bool :=
  match p with
  | [] => (t, [], false)
  | key :: newpath =>
      match contains (Node t) key with
      | Some n =>
          match newpath with
          | [] => (n, p, true)
          | _ :: _ => Trie_Get n newpath version
          end
      | None => (t, p, false)
      end
  end.

(** Insert or overwrite the entry of a [(method, version)] pair. *)
Fixpoint upsert (hs : list MethodHandler.t) (m ver : string) (h : http_Handler)
  : list MethodHandler.t :=
  match hs with
  | [] => [MethodHandler.mk m ver h]
  | e :: hs' =>
      if String.eqb (MethodHandler.Method e) m && String.eqb (MethodHandler.Version e) ver
      then MethodHandler.mk m ver h :: hs'
      else e :: upsert hs' m ver h
  end.

(** Replace the first child that carries a token. *)
Fixpoint replaceChild (children : list Trie) (key : string) (n' : Trie) : list Trie :=
  match children with
  | [] => []
  | n :: children' =>
      if String.eqb (path n) key then n' :: children'
      else n :: replaceChild children' key n'
  end.

(** Modelled from the spec: [Trie.Set] (the specification's Insert) is
    declared outside violetear.go.  It descends the tree, creating a node
    per segment where there is none; at the final node it inserts or
    overwrites the [(method, version)] entry of every non-empty token of
    the comma-separated method list; a new dynamic or catch-all child sets
    the flag of its parent. *)
Fixpoint Trie_Set (t : Trie) (p : list string) (handler : http_Handler)
    (method version : string) : option error * Trie :=
  match p with
  | [] => (Some (ErrTrie "path cannot be empty"), t)
  | key :: newpath =>
      let found := contains (Node t) key in
      let node := default (mkTrie [] false false [] key) found in
      let '(err, node') :=
        match newpath with
        | [] =>
            let methods := filter (fun m => m <> "") (split_at "," method) in
            (None,
             mkTrie (foldl (fun hs m => upsert hs m version handler) (Handler node) methods)
                    (HasCatchall node) (HasRegex node) (Node node) (path node))
        | _ :: _ => Trie_Set node newpath handler method version
        end in
      match found with
      | Some _ =>
          (err, mkTrie (Handler t) (HasCatchall t) (HasRegex t)
                       (replaceChild (Node t) key node') (path t))
      | None =>
          (err, mkTrie (Handler t)
                       (HasCatchall t || String.eqb key "*")
                       (HasRegex t || strings.HasPrefix key ":")
                       (Node t ++ [node']) (path t))
      end
  end.

(** Modelled from the spec: [dynamicSet.Set], which [AddRegex] calls, is
    declared outside violetear.go.  It stores the compiled pattern under the
    name, over any earlier one. *)
Definition AddRegex (name : string) (rx : Regexp) (v : Router) : option error * Router :=
  (None,
   mkRouter (<[name := rx]> (dynamicRoutes v)) (routes v) (LogRequests v)
            (NotFoundHandler v) (NotAllowedHandler v) (RequestID v) (Verbose v)).

(** A pattern for the examples: one or more decimal digits. *)
Fixpoint digits (s : string) : bool :=
  match s with
  | "" => false
  | String c "" => ((48 <=? N_of_ascii c) && (N_of_ascii c <=? 57))%N
  | String c s' => ((48 <=? N_of_ascii c) && (N_of_ascii c <=? 57))%N && digits s'
  end.

(** The router of the specification's example: [":id"] is the digits and
    ["/a/:id/b"] is registered for GET. *)
Definition demo : Router :=
  let v := snd (AddRegex ":id" digits New) in
  snd (Handle Trie_Set "/a/:id/b" (UserHandler 1) ["GET"] v).

(** [demo] with a catch-all for every method and a route for any method. *)
Definition demo2 : Router :=
  let v := snd (Handle Trie_Set "*" (UserHandler 2) [] demo) in
  snd (Handle Trie_Set "/hello" (UserHandler 3) [" "] v).

(** ** The lookup over the memory it shares with other requests

    [match] assigns to [path[0]] (line 183): it writes into the array behind
    the slice it was given, which [splitPath] allocated for the request and
    of which [Trie.Get] answers a part.  It is the only assignment of
    [match], [checkMethod] and [splitPath] to memory that outlives the call;
    none has a field of the router or of a node on its left.  The world
    below holds the router and every array of strings allocated so far,
    whoever holds it. *)
Record world : Type := mkWorld {
  w_router : Router;
  w_arrays : list (list string)
}.

(** A slice of strings: the index of its array and the offset of its first
    element; it runs to the end of the array, as [path[k:]] does. *)
Definition slice : Type := (nat * nat)%type.

(** The elements of a slice. *)
Definition slice_read (w : world) (sl : slice) : list string :=
  drop (snd sl) (default [] (w_arrays w !! fst sl)).

(** The assignment [path[0] = x]. *)
Definition slice_set_first (w : world) (sl : slice) (x : string) : world :=
  mkWorld (w_router w)
          (alter (fun arr => <[snd sl := x]> arr) (fst sl) (w_arrays w)).

(** Modelled from the spec: [Trie.Get] is declared outside violetear.go; its
    second result is the specification's [remainingSegments], a part
    [path[k:]] of the path it is given, and not an empty one when the path
    is not empty. *)
Definition remainder (Get : Trie -> list string -> string -> Trie * list string * bool)
  : Prop :=
  forall t p version,
    exists k, snd (fst (Get t p version)) = drop k p /\
              (p <> [] -> (k < length p)%nat).

Section Store.

Variable Get : Trie -> list string -> string -> Trie * list string * bool.

(** Lines 195-208, in the world. *)
Definition fallback_store (node : Trie) (p : list string) (params : Params)
    (method : string) (catchall : bool) (w : world)
  : outcome (http_Handler * Params) * world :=
  match (if catchall then findCatchall (Node node) else None) with
  | Some n =>
      match p with
      | seg :: _ =>
          (Returns (checkMethod (w_router w) n method, Params_Add params "*" seg), w)
      | [] => (Panics IndexOutOfRange, w)
      end
  | None => (Returns (notFound (w_router w), params), w)
  end.

(** [match] (lines 172-209), reading the router and the path from the world
    and writing [path[0]] into it.  The slice [Get] answers starts as many
    elements further in the same array as its remainder is shorter. *)
Fixpoint match_store (fuel : nat) (node : Trie) (sl : slice) (leaf : bool)
    (params : Params) (method version : string) (w : world)
  : outcome (http_Handler * Params) * world :=
  match fuel with
  | O => (OutOfFuel, w)
  | S fuel' =>
      let p := slice_read w sl in
      if (0 <? Z.of_nat (length (Handler node))) && leaf then
        (Returns (checkMethod (w_router w) node method, params), w)
      else if HasRegex node then
        match tryDynamic (dynamicRoutes (w_router w)) (Node node) p with
        | Hit n seg rest =>
            let params := Params_Add params (path n) seg in
            let w := slice_set_first w sl (path n) in
            let '(node', p', leaf') := Get node (slice_read w sl) version in
            let sl' := (fst sl, (snd sl + (length (slice_read w sl) - length p'))%nat) in
            match_store fuel' node' sl' leaf' params method version w
        | Fault k => (Panics k, w)
        | Miss => fallback_store node p params method (HasCatchall node) w
        end
      else fallback_store node p params method (HasCatchall node) w
  end.

(** Lines 246-249 of [ServeHTTP] in the world: [splitPath] allocates the
    array of the request, [Get] answers a part of it, [match] runs on that
    part. *)
Definition Match_store (fuel : nat) (urlPath method version : string) (w : world)
  : outcome (http_Handler * Params) * world :=
  let sl : slice := (length (w_arrays w), 0%nat) in
  let w := mkWorld (w_router w) (w_arrays w ++ [splitPath urlPath]) in
  let '(node, p', leaf) := Get (routes (w_router w)) (slice_read w sl) version in
  let sl' := (fst sl, (length (slice_read w sl) - length p')%nat) in
  match_store fuel node sl' leaf [] method version w.

End Store.

(** A router whose only route is a dynamic segment that accepts everything,
    the root token included. *)
Definition any_segment : Router :=
  let v := snd (AddRegex ":any" (fun _ => true) New) in
  snd (Handle Trie_Set "/:any" (UserHandler 4) [] v).

(** The states of [match]: node, remaining path, leaf flag and parameters. *)
Definition state : Type := Trie * list string * bool * Params.

(** [reaches s s']: [match] called on [s] calls itself on [s'] after some
    number of committed dynamic children. *)
Inductive reaches (Get : Trie -> list string -> string -> Trie * list string * bool)
    (v : Router) (method version : string) : state -> state -> Prop :=
| reaches_here s : reaches Get v method version s s
| reaches_step node p leaf params node' p' leaf' params' s'' :
    match_step Get v node p leaf params method version = Descend node' p' leaf' params' ->
    reaches Get v method version (node', p', leaf', params') s'' ->
    reaches Get v method version (node, p, leaf, params) s''.

(** What [match] asks of [Trie.Get]: called on a node with the token of one
    of its children in front, it answers a node strictly below and a
    remainder that is not empty. *)
Definition descends (Get : Trie -> list string -> string -> Trie * list string * bool)
  : Prop :=
  forall t n rest version,
    In n (Node t) ->
    exists t' p' leaf',
      Get t (path n :: rest) version = (t', p', leaf') /\ p' <> [] /\ sub t' t.

(** What [match] returns from each of its return statements, called on
    [node] with the path [p] and the parameters [params]. *)
Definition answer_of (v : Router) (method : string) (b : branch) (node : Trie)
    (p : list string) (params : Params) (h : http_Handler) (ps : Params) : Prop :=
  match b with
  | ExactLeaf => h = checkMethod v node method /\ ps = params
  | CatchAll =>
      exists n seg rest,
        findCatchall (Node node) = Some n /\ p = seg :: rest /\
        h = checkMethod v n method /\ ps = params ++ [("*", seg)]
  | NoRoute => h = notFound v /\ ps = params
  end.

(** [sub] occurs in [s] at offset [k]. *)
Definition occurs_at (s sub : string) (k : nat) : Prop :=
  exists pre suf, s = pre +:+ sub +:+ suf /\ String.length pre = k.

(** A boolean check that [sub] does not occur in [s] at any of the [n]
    offsets after [k]. *)
Definition none_after (s sub : string) (k n : nat) : bool :=
  forallb (fun j => negb (strings.HasPrefix (strings.slice_from j s) sub)) (seq (S k) n).

(** The field being read, as the text read since the last separator. *)
Definition cur_of (pre : string) : option string :=
  match pre with
  | "" => None
  | String _ _ => Some pre
  end.

(** Put [pre] in front of the first piece. *)
Definition prepend (pre : string) (ws : list string) : list string :=
  match ws with
  | [] => [pre]
  | w :: ws' => (pre +:+ w) :: ws'
  end.

(** A pattern that accepts every segment. *)
Definition anything : Regexp := fun _ => true.

(** Two dynamic siblings: ["/:id/b"] and, registered after it, ["/:any/c"]. *)
Definition siblings : Router :=
  let v := snd (AddRegex ":id" digits New) in
  let v := snd (AddRegex ":any" anything v) in
  let v := snd (Handle Trie_Set "/:id/b" (UserHandler 1) [] v) in
  snd (Handle Trie_Set "/:any/c" (UserHandler 2) [] v).

(** [HandleFunc] (lines 136-138): [Handle] on the handler a function
    converts to. *)
Definition HandleFunc
    (Set_ : Trie -> list string -> http_Handler -> string -> string -> option error * Trie)
    (pth : string) (handler : http_Handler) (httpMethods : list string) (v : Router)
  : option error * Router :=
  Handle Set_ pth handler httpMethods v.

(** A [Get] that answers the node it was called on or a node below it. *)
Definition within (Get : Trie -> list string -> string -> Trie * list string * bool)
  : Prop :=
  forall t p version, fst (fst (Get t p version)) = t \/ sub (fst (fst (Get t p version))) t.


(** An outcome of [match] with parameters put in front of those it returns. *)
Definition with_params (params : Params) (o : outcome (http_Handler * Params))
  : outcome (http_Handler * Params) :=
  match o with
  | Returns (h, ps) => Returns (h, params ++ ps)
  | Panics k => Panics k
  | OutOfFuel => OutOfFuel
  end.

(** The node of [demo] that the literal segment "a" leads to. *)
Definition demo_a : Trie := fst (fst (Trie_Get (routes demo) ["a"] "")).

(** * Properties *)

(** ** Strings *)

Lemma app_nil_l (s : string) : "" +:+ s = s.
Proof. reflexivity. Qed.

Lemma app_cons (a : ascii) (s t : string) : String a s +:+ t = String a (s +:+ t).
Proof. reflexivity. Qed.

Lemma app_nil_r (s : string) : s +:+ "" = s.
Proof. induction s as [|a s IH]; [reflexivity|]. rewrite app_cons, IH. reflexivity. Qed.

Lemma app_assoc (s t u : string) : (s +:+ t) +:+ u = s +:+ t +:+ u.
Proof.
  induction s as [|a s IH]; [reflexivity|].
  rewrite !app_cons, IH. reflexivity.
Qed.

Lemma length_app (s t : string) :
  String.length (s +:+ t) = (String.length s + String.length t)%nat.
Proof.
  induction s as [|a s IH]; [reflexivity|].
  rewrite app_cons. simpl. rewrite IH. reflexivity.
Qed.

Lemma HasPrefix_spec (s prefix : string) :
  strings.HasPrefix s prefix = true <-> exists suf, s = prefix +:+ suf.
Proof.
  revert s. induction prefix as [|a prefix IH]; intros s.
  - split; [intros _; exists s; reflexivity | intros _; destruct s; reflexivity].
  - destruct s as [|b s]; simpl.
    + split; [discriminate | intros [suf H]; discriminate].
    + destruct (Ascii.eqb_spec a b) as [->|Hne].
      * rewrite IH. split; intros [suf H]; exists suf.
        -- rewrite app_cons, H. reflexivity.
        -- rewrite app_cons in H. congruence.
      * split; [discriminate|]. intros [suf H].
        rewrite app_cons in H. congruence.
Qed.

Lemma slice_from_app (pre s : string) :
  strings.slice_from (String.length pre) (pre +:+ s) = s.
Proof. induction pre as [|a pre IH]; [reflexivity|]. rewrite app_cons. exact IH. Qed.

(** An occurrence at offset [k], read through the slice [s[k:]]. *)
Lemma occurs_at_slice (s sub : string) (k : nat) :
  occurs_at s sub k <->
  (k <= String.length s)%nat /\ strings.HasPrefix (strings.slice_from k s) sub = true.
Proof.
  unfold occurs_at. revert s. induction k as [|k IH]; intros s.
  - simpl. rewrite HasPrefix_spec. split.
    + intros (pre & suf & -> & Hl). destruct pre; [|discriminate].
      split; [lia|]. exists suf. reflexivity.
    + intros [_ [suf ->]]. exists "", suf. split; reflexivity.
  - destruct s as [|a s].
    + split.
      * intros (pre & suf & H & Hl). destruct pre; discriminate.
      * simpl. intros [H _]. lia.
    + simpl. split.
      * intros (pre & suf & H & Hl). destruct pre as [|b pre]; [discriminate|].
        rewrite app_cons in H. injection H as -> ->. simpl in Hl.
        destruct (proj1 (IH (pre +:+ sub +:+ suf))) as [H1 H2].
        { exists pre, suf. split; [reflexivity | lia]. }
        split; [lia | exact H2].
      * intros [H1 H2].
        destruct (proj2 (IH s)) as (pre & suf & -> & Hl); [split; [lia | exact H2]|].
        exists (String a pre), suf. split; [reflexivity | simpl; lia].
Qed.

Lemma LastIndex_from_spec (sub : string) (s : string) :
  forall i last,
    ((forall k, ~ occurs_at s sub k) -> strings.LastIndex_from i last s sub = last) /\
    (forall k, occurs_at s sub k -> (forall k', occurs_at s sub k' -> (k' <= k)%nat) ->
               strings.LastIndex_from i last s sub = i + Z.of_nat k).
Proof.
  induction s as [|a s IH]; intros i last.
  - cbn [strings.LastIndex_from]. split.
    + intros Hno. destruct (strings.HasPrefix "" sub) eqn:E; [|reflexivity].
      exfalso. apply (Hno 0%nat). apply occurs_at_slice. split; [simpl; lia | exact E].
    + intros k Hk _. apply occurs_at_slice in Hk as [Hle E]. simpl in Hle.
      assert (k = 0%nat) as -> by lia. cbn [strings.slice_from] in E. rewrite E. lia.
  - assert (Hshift : forall k, occurs_at (String a s) sub (S k) <-> occurs_at s sub k).
    { intros k. rewrite !occurs_at_slice. simpl. split; intros [H1 H2]; (split; [lia | exact H2]). }
    assert (Hzero : occurs_at (String a s) sub 0 <-> strings.HasPrefix (String a s) sub = true).
    { rewrite occurs_at_slice. simpl. split; [intros [_ H]; exact H | intros H; split; [lia | exact H]]. }
    cbn [strings.LastIndex_from]. split.
    + intros Hno.
      destruct (strings.HasPrefix (String a s) sub) eqn:E.
      { exfalso. apply (Hno 0%nat). apply Hzero. reflexivity. }
      apply (IH (i + 1) last). intros k Hk. apply (Hno (S k)). apply Hshift. exact Hk.
    + intros k Hk Hmax. destruct k as [|k].
      * apply Hzero in Hk. rewrite Hk.
        rewrite (proj1 (IH (i + 1) i)); [lia|].
        intros k' Hk'. apply Hshift in Hk'. apply Hmax in Hk'. lia.
      * rewrite (proj2 (IH (i + 1) _) k).
        -- lia.
        -- apply Hshift. exact Hk.
        -- intros k' Hk'. apply Hshift in Hk'. apply Hmax in Hk'. lia.
Qed.

(** Among the offsets up to [n] at which [sub] occurs there is a last one. *)
Lemma last_occurrence (s sub : string) (n : nat) :
  (exists k, (k <= n)%nat /\ occurs_at s sub k) ->
  exists k, (k <= n)%nat /\ occurs_at s sub k /\
            forall k', (k' <= n)%nat -> occurs_at s sub k' -> (k' <= k)%nat.
Proof.
  induction n as [|n IH]; intros (k & Hk & Hocc).
  - exists k. repeat split; try assumption. intros k' Hk' _. lia.
  - destruct (decide ((S n <= String.length s)%nat /\
                      strings.HasPrefix (strings.slice_from (S n) s) sub = true)) as [Hd|Hd].
    + exists (S n). split; [lia|]. split; [apply occurs_at_slice; exact Hd|].
      intros k' Hk' _. exact Hk'.
    + assert (Hlt : forall j, (j <= S n)%nat -> occurs_at s sub j -> (j <= n)%nat).
      { intros j Hj Hoj. destruct (decide (j = S n)) as [->|]; [|lia].
        exfalso. apply Hd. apply occurs_at_slice. exact Hoj. }
      destruct IH as (k0 & Hk0 & Hocc0 & Hmax0).
      { exists k. split; [apply Hlt; assumption | exact Hocc]. }
      exists k0. split; [lia|]. split; [exact Hocc0|].
      intros k' Hk' Hocc'. apply Hmax0; [apply Hlt; assumption | exact Hocc'].
Qed.

Lemma none_after_sound (s sub : string) (k : nat) :
  none_after s sub k (String.length s - k) = true ->
  forall k', occurs_at s sub k' -> (k' <= k)%nat.
Proof.
  unfold none_after. intros H k' Hocc.
  apply occurs_at_slice in Hocc as [Hle Hpre].
  destruct (le_lt_dec k' k) as [|Hlt]; [assumption|exfalso].
  rewrite forallb_forall in H. specialize (H k').
  rewrite Hpre in H. simpl in H.
  assert (false = true) by (apply H; apply in_seq; lia). discriminate.
Qed.

(** ** C7: the version named by the Accept header *)

(** C7. The version of a request is read off the Accept header by the
    prefix "application/vnd.": when the header is [pre ++ prefix ++ suf]
    and no occurrence of the prefix starts later than this one, the version
    is [suf]; an occurrence implies a last one, so the version is then the
    text after the last occurrence; when the prefix does not occur the
    version is the empty string. *)
Theorem requestVersion_after_last_prefix (accept : string) :
  (forall pre suf,
      accept = pre +:+ versionHeader +:+ suf ->
      (forall k, occurs_at accept versionHeader k -> (k <= String.length pre)%nat) ->
      requestVersion accept = suf) /\
  ((exists k, occurs_at accept versionHeader k) ->
   exists pre suf,
     accept = pre +:+ versionHeader +:+ suf /\
     (forall k, occurs_at accept versionHeader k -> (k <= String.length pre)%nat) /\
     requestVersion accept = suf) /\
  ((forall k, ~ occurs_at accept versionHeader k) -> requestVersion accept = "").
Proof.
  assert (Hlast : forall pre suf,
             accept = pre +:+ versionHeader +:+ suf ->
             (forall k, occurs_at accept versionHeader k -> (k <= String.length pre)%nat) ->
             requestVersion accept = suf).
  { intros pre suf Heq Hmax. unfold requestVersion, strings.LastIndex.
    rewrite (proj2 (LastIndex_from_spec versionHeader accept 0 (-1)) (String.length pre)).
    - destruct (Z.eqb_spec (0 + Z.of_nat (String.length pre)) (-1)) as [Hneg|_]; [lia|].
      cbn [negb]. unfold strings.len.
      replace (Z.to_nat (Z.of_nat (String.length versionHeader) + (0 + Z.of_nat (String.length pre))))
        with (String.length (pre +:+ versionHeader)) by (rewrite length_app; lia).
      rewrite Heq, <- app_assoc. apply slice_from_app.
    - exists pre, suf. split; [exact Heq | reflexivity].
    - exact Hmax. }
  split; [exact Hlast|]. split.
  - intros [k Hk].
    destruct (last_occurrence accept versionHeader (String.length accept)) as (k0 & _ & Hocc & Hmax).
    { exists k. split; [|exact Hk]. apply occurs_at_slice in Hk. tauto. }
    destruct Hocc as (pre & suf & Heq & Hlen).
    assert (Hmax' : forall j, occurs_at accept versionHeader j -> (j <= String.length pre)%nat).
    { intros j Hj. rewrite Hlen. apply Hmax; [|exact Hj]. apply occurs_at_slice in Hj. tauto. }
    exists pre, suf. split; [exact Heq|]. split; [exact Hmax'|]. apply (Hlast pre suf Heq Hmax').
  - intros Hno. unfold requestVersion, strings.LastIndex.
    rewrite (proj1 (LastIndex_from_spec versionHeader accept 0 (-1)) Hno). reflexivity.
Qed.

Lemma requestVersion_after_last_prefix_witness :
  requestVersion "application/vnd.v1, application/vnd.v2+json" = "v2+json".
Proof.
  apply (proj1 (requestVersion_after_last_prefix
                  "application/vnd.v1, application/vnd.v2+json")
               "application/vnd.v1, " "v2+json").
  - reflexivity.
  - apply none_after_sound. vm_compute. reflexivity.
Defined.

(** ** C8: splitPath *)

Lemma split_at_nonempty (sep : ascii) (s : string) : split_at sep s <> [].
Proof.
  destruct s as [|c s]; simpl; [discriminate|].
  destruct (Ascii.eqb c sep); [discriminate|].
  destruct (split_at sep s); discriminate.
Qed.

Lemma FieldsFunc_loop_split (sep : ascii) (s pre : string) :
  strings.FieldsFunc_loop (fun c => Ascii.eqb c sep) (cur_of pre) s
  = filter (fun w => w <> "") (prepend pre (split_at sep s)).
Proof.
  revert pre. induction s as [|c s IH]; intros pre.
  - simpl. rewrite app_nil_r. destruct pre; reflexivity.
  - cbn [strings.FieldsFunc_loop split_at].
    destruct (Ascii.eqb c sep) eqn:E.
    + cbn [prepend]. rewrite app_nil_r.
      specialize (IH ""). cbn [cur_of] in IH.
      assert (Hrest : filter (fun w => w <> "") (prepend "" (split_at sep s))
                      = filter (fun w => w <> "") (split_at sep s)).
      { destruct (split_at sep s) as [|w ws] eqn:Es; [|reflexivity].
        exfalso. exact (split_at_nonempty _ _ Es). }
      rewrite Hrest in IH.
      destruct pre as [|a pre]; cbn [cur_of]; rewrite IH.
      * rewrite filter_cons_False by (intros H; apply H; reflexivity). reflexivity.
      * rewrite filter_cons_True by discriminate. reflexivity.
    + specialize (IH (pre +:+ String c "")).
      assert (Hcur : Some (match cur_of pre with
                           | Some w => w +:+ String c ""
                           | None => String c ""
                           end) = cur_of (pre +:+ String c "")).
      { destruct pre as [|a pre]; reflexivity. }
      rewrite Hcur, IH.
      destruct (split_at sep s) as [|w ws] eqn:Es.
      { exfalso. exact (split_at_nonempty _ _ Es). }
      cbn [prepend]. rewrite app_assoc. reflexivity.
Qed.

Lemma join_split_at (sep : ascii) (s : string) : join sep (split_at sep s) = s.
Proof.
  induction s as [|c s IH]; [reflexivity|].
  cbn [split_at]. destruct (Ascii.eqb_spec c sep) as [->|Hne].
  - pose proof (split_at_nonempty sep s) as Hn.
    destruct (split_at sep s) as [|w ws]; [congruence|].
    cbn [join]. rewrite app_nil_l. f_equal. exact IH.
  - pose proof (split_at_nonempty sep s) as Hn.
    destruct (split_at sep s) as [|w ws]; [congruence|].
    destruct ws as [|w' ws].
    + simpl in *. congruence.
    + cbn [join] in *. rewrite app_cons. f_equal. exact IH.
Qed.

Lemma split_at_free (sep : ascii) (s : string) :
  Forall (fun w => free_of sep w = true) (split_at sep s).
Proof.
  induction s as [|c s IH]; [repeat constructor|].
  cbn [split_at]. destruct (Ascii.eqb c sep) eqn:E.
  - constructor; [reflexivity | exact IH].
  - destruct (split_at sep s) as [|w ws].
    + constructor; [simpl; rewrite E; reflexivity | constructor].
    + inversion IH; subst. constructor; [simpl; rewrite E; assumption | assumption].
Qed.

Lemma nonempty_tokens_nil (s : string) :
  nonempty_tokens s = [] <-> only "/" s = true.
Proof.
  unfold nonempty_tokens. induction s as [|c s IH].
  - simpl. split; reflexivity.
  - cbn [split_at only]. destruct (Ascii.eqb c "/") eqn:E.
    + rewrite filter_cons_False by (intros H; apply H; reflexivity). simpl. exact IH.
    + pose proof (split_at_nonempty "/" s) as Hn.
      destruct (split_at "/" s) as [|w ws]; [congruence|].
      rewrite filter_cons_True by discriminate. simpl. split; discriminate.
Qed.

(** C8. [splitPath] returns, in order, the non-empty pieces of the path cut
    at every '/', and the root token when there is no such piece, which is
    when the path is empty or made of slashes only.  The pieces are those of
    the path: joined by '/' they give it back, and none contains a '/'. *)
Theorem splitPath_tokens (p : string) :
  splitPath p = splitPath_spec p /\
  (nonempty_tokens p <> [] -> splitPath p = nonempty_tokens p) /\
  (nonempty_tokens p = [] -> splitPath p = ["/"]) /\
  (nonempty_tokens p = [] <-> only "/" p = true) /\
  Forall (fun w => w <> "") (splitPath p) /\
  join "/" (split_at "/" p) = p /\
  Forall (fun w => free_of "/" w = true) (split_at "/" p).
Proof.
  assert (Heq : strings.FieldsFunc p (fun c => Ascii.eqb c "/") = nonempty_tokens p).
  { unfold strings.FieldsFunc, nonempty_tokens.
    change None with (cur_of ""). rewrite (FieldsFunc_loop_split "/" p "").
    pose proof (split_at_nonempty "/" p) as Hn.
    destruct (split_at "/" p); [congruence | reflexivity]. }
  assert (Hspec : splitPath p = splitPath_spec p).
  { unfold splitPath, splitPath_spec. rewrite Heq.
    destruct (nonempty_tokens p); reflexivity. }
  split; [exact Hspec|].
  split; [intros Hne; rewrite Hspec; unfold splitPath_spec;
          destruct (nonempty_tokens p); [congruence | reflexivity]|].
  split; [intros He; rewrite Hspec; unfold splitPath_spec; rewrite He; reflexivity|].
  split; [apply nonempty_tokens_nil|].
  split.
  - rewrite Hspec. unfold splitPath_spec.
    destruct (nonempty_tokens p) as [|w ws] eqn:E.
    + repeat constructor. discriminate.
    + rewrite <- E. unfold nonempty_tokens. apply Forall_forall.
      intros x Hx. apply list_elem_of_filter in Hx. tauto.
  - split; [apply join_split_at | apply split_at_free].
Qed.

Lemma splitPath_tokens_witness :
  splitPath "//a//b/" = ["a"; "b"] /\ splitPath "///" = ["/"].
Proof.
  split.
  - rewrite (proj1 (proj2 (splitPath_tokens "//a//b/"))); [reflexivity | discriminate].
  - apply (proj1 (proj2 (proj2 (splitPath_tokens "///")))). reflexivity.
Defined.

(** ** C4: method resolution *)

Lemma checkMethod_loop_first (pre post : list MethodHandler.t)
    (e : MethodHandler.t) (method : string) :
  (forall e', In e' pre ->
              MethodHandler.Method e' <> "ALL" /\ MethodHandler.Method e' <> method) ->
  MethodHandler.Method e = "ALL" \/ MethodHandler.Method e = method ->
  checkMethod_loop (pre ++ e :: post) method = Some (MethodHandler.Handler e).
Proof.
  intros Hpre He. induction pre as [|e' pre IH]; simpl.
  - destruct (String.eqb_spec (MethodHandler.Method e) "ALL"); [reflexivity|].
    destruct (String.eqb_spec (MethodHandler.Method e) method); [reflexivity|].
    tauto.
  - destruct (Hpre e' (or_introl eq_refl)) as [H1 H2].
    destruct (String.eqb_spec (MethodHandler.Method e') "ALL"); [contradiction|].
    destruct (String.eqb_spec (MethodHandler.Method e') method); [contradiction|].
    apply IH. intros e'' Hin. apply Hpre. right. exact Hin.
Qed.

Lemma checkMethod_loop_none (hs : list MethodHandler.t) (method : string) :
  checkMethod_loop hs method = None <->
  forall e, In e hs ->
            MethodHandler.Method e <> "ALL" /\ MethodHandler.Method e <> method.
Proof.
  induction hs as [|e hs IH]; simpl.
  - split; [intros _ e [] | reflexivity].
  - destruct (String.eqb_spec (MethodHandler.Method e) "ALL") as [Ha|Ha].
    { split; [discriminate|]. intros H. destruct (H e (or_introl eq_refl)). contradiction. }
    destruct (String.eqb_spec (MethodHandler.Method e) method) as [Hm|Hm].
    { split; [discriminate|]. intros H. destruct (H e (or_introl eq_refl)). contradiction. }
    rewrite IH. split.
    + intros H e' [<-|Hin]; [tauto | apply H; exact Hin].
    + intros H e' Hin. apply H. right. exact Hin.
Qed.

(** C4. [checkMethod] scans the handler table of the node in order and
    returns the handler of the first entry whose method is "ALL" or the
    requested method: whatever entries follow it, an entry is the answer
    when no entry before it qualifies and it does. *)
Theorem checkMethod_first_match (v : Router) (node : Trie) (method : string)
    (pre post : list MethodHandler.t) (e : MethodHandler.t) :
  Handler node = pre ++ e :: post ->
  (forall e', In e' pre ->
              MethodHandler.Method e' <> "ALL" /\ MethodHandler.Method e' <> method) ->
  MethodHandler.Method e = "ALL" \/ MethodHandler.Method e = method ->
  checkMethod v node method = MethodHandler.Handler e.
Proof.
  intros Hnode Hpre He. unfold checkMethod.
  rewrite Hnode, (checkMethod_loop_first pre post e method Hpre He). reflexivity.
Qed.

Lemma checkMethod_first_match_witness :
  checkMethod New
    (mkTrie [MethodHandler.mk "GET" "" (UserHandler 1);
             MethodHandler.mk "ALL" "" (UserHandler 2);
             MethodHandler.mk "POST" "" (UserHandler 3)] false false [] "x")
    "POST" = UserHandler 2.
Proof.
  apply (checkMethod_first_match New _ "POST"
           [MethodHandler.mk "GET" "" (UserHandler 1)]
           [MethodHandler.mk "POST" "" (UserHandler 3)]
           (MethodHandler.mk "ALL" "" (UserHandler 2))).
  - reflexivity.
  - intros e' [<-|[]]. simpl. split; discriminate.
  - left. reflexivity.
Defined.

(** ** The loops of [match] *)


Lemma tryDynamic_hit_inv (dyn : dynamicSet) (children : list Trie)
    (p : list string) (n : Trie) (seg : string) (rest : list string) :
  tryDynamic dyn children p = Hit n seg rest ->
  p = seg :: rest /\
  exists pre post rx,
    children = pre ++ n :: post /\
    (forall c, In c pre -> strings.HasPrefix (path c) ":" = true ->
               exists rx', dyn !! path c = Some rx' /\ MatchString rx' seg = false) /\
    strings.HasPrefix (path n) ":" = true /\
    dyn !! path n = Some rx /\ MatchString rx seg = true.
Proof.
  induction children as [|c children IH]; simpl; [discriminate|].
  destruct (strings.HasPrefix (path c) ":") eqn:Hc.
  - destruct p as [|seg' rest']; [discriminate|].
    destruct (dyn !! path c) as [rx|] eqn:Hrx; [|discriminate].
    destruct (MatchString rx seg') eqn:Hm.
    + intros [= -> -> ->]. split; [reflexivity|].
      exists [], children, rx. repeat split; try assumption. intros c' [].
    + intros H. destruct (IH H) as (Hp & pre & post & rx0 & -> & Hpre & Hrest).
      split; [exact Hp|]. injection Hp as -> ->.
      exists (c :: pre), post, rx0. split; [reflexivity|]. split; [|exact Hrest].
      intros c' [<-|Hin] Hc'; [exists rx; split; assumption | apply Hpre; assumption].
  - intros H. destruct (IH H) as (Hp & pre & post & rx0 & -> & Hpre & Hrest).
    split; [exact Hp|].
    exists (c :: pre), post, rx0. split; [reflexivity|]. split; [|exact Hrest].
    intros c' [<-|Hin] Hc'; [congruence | apply Hpre; assumption].
Qed.

Lemma tryDynamic_miss_inv (dyn : dynamicSet) (children : list Trie)
    (seg : string) (rest : list string) :
  tryDynamic dyn children (seg :: rest) = Miss ->
  forall c, In c children -> strings.HasPrefix (path c) ":" = true ->
            exists rx, dyn !! path c = Some rx /\ MatchString rx seg = false.
Proof.
  induction children as [|c children IH]; simpl; [intros _ c []|].
  destruct (strings.HasPrefix (path c) ":") eqn:Hc.
  - destruct (dyn !! path c) as [rx|] eqn:Hrx; [|discriminate].
    destruct (MatchString rx seg) eqn:Hm; [discriminate|].
    intros H c' [<-|Hin] Hc'; [exists rx; split; assumption | apply IH; assumption].
  - intros H c' [<-|Hin] Hc'; [congruence | apply IH; assumption].
Qed.

Lemma tryDynamic_miss (dyn : dynamicSet) (children : list Trie)
    (seg : string) (rest : list string) :
  (forall c, In c children -> strings.HasPrefix (path c) ":" = true ->
             exists rx, dyn !! path c = Some rx /\ MatchString rx seg = false) ->
  tryDynamic dyn children (seg :: rest) = Miss.
Proof.
  intros H. induction children as [|c children IH]; simpl; [reflexivity|].
  destruct (strings.HasPrefix (path c) ":") eqn:Hc.
  - destruct (H c (or_introl eq_refl) Hc) as (rx & -> & ->).
    apply IH. intros c' Hin. apply H. right. exact Hin.
  - apply IH. intros c' Hin. apply H. right. exact Hin.
Qed.

Lemma findCatchall_inv (children : list Trie) (n : Trie) :
  findCatchall children = Some n <->
  exists pre post, children = pre ++ n :: post /\ path n = "*" /\
                   forall c, In c pre -> path c <> "*".
Proof.
  induction children as [|c children IH]; simpl.
  - split; [discriminate|]. intros (pre & post & H & _). destruct pre; discriminate.
  - destruct (String.eqb_spec (path c) "*") as [Hc|Hc].
    + split.
      * intros [= ->]. exists [], children. repeat split; [assumption | intros c' []].
      * intros (pre & post & H & Hn & Hpre). destruct pre as [|c' pre].
        -- simpl in H. congruence.
        -- simpl in H. injection H as -> ->. destruct (Hpre c' (or_introl eq_refl) Hc).
    + rewrite IH. split.
      * intros (pre & post & -> & Hn & Hpre). exists (c :: pre), post.
        repeat split; [assumption|]. intros c' [<-|Hin]; [assumption | apply Hpre; assumption].
      * intros (pre & post & H & Hn & Hpre). destruct pre as [|c' pre].
        -- simpl in H. injection H as -> ->. contradiction.
        -- simpl in H. injection H as -> ->. exists pre, post.
           repeat split; [assumption|]. intros c'' Hin. apply Hpre. right. exact Hin.
Qed.

(** ** C1 and C2: the dynamic children and the catch-all *)

Section Matching.

Variable Get : Trie -> list string -> string -> Trie * list string * bool.


(** The catch-all return is taken under exactly these conditions. *)
Lemma catchall_taken (v : Router) (node : Trie) (seg : string) (rest : list string)
    (leaf : bool) (params : Params) (method version : string) (n : Trie) :
  (0 <? Z.of_nat (length (Handler node))) && leaf = false ->
  HasCatchall node = true ->
  findCatchall (Node node) = Some n ->
  (HasRegex node = true ->
   tryDynamic (dynamicRoutes v) (Node node) (seg :: rest) = Miss) ->
  match_step Get v node (seg :: rest) leaf params method version
  = Done CatchAll (checkMethod v n method) (params ++ [("*", seg)]).
Proof.
  intros Hleaf Hcatch Hfind Hdyn. unfold match_step. rewrite Hleaf.
  destruct (HasRegex node).
  - rewrite (Hdyn eq_refl). unfold fallback. rewrite Hcatch, Hfind. reflexivity.
  - unfold fallback. rewrite Hcatch, Hfind. reflexivity.
Qed.

(** C2. When a call of [match] returns through the catch-all branch, the
    parameters it returns are those it was given plus the one pair of "*"
    and the first remaining segment, whatever segments follow; the handler
    is the method resolution of the first child whose token is "*"; and the
    call was neither at an exact leaf nor, on a node flagged as having a
    dynamic child, in front of a dynamic child whose pattern accepts the
    segment. *)
Theorem catchall_binds_one_segment
    (v : Router) (node : Trie) (p : list string) (leaf : bool)
    (params : Params) (method version : string)
    (h : http_Handler) (params' : Params) :
  match_step Get v node p leaf params method version = Done CatchAll h params' ->
  exists seg rest n pre post,
    p = seg :: rest /\
    params' = params ++ [("*", seg)] /\
    Node node = pre ++ n :: post /\ path n = "*" /\
    (forall c, In c pre -> path c <> "*") /\
    h = checkMethod v n method /\
    (0 <? Z.of_nat (length (Handler node))) && leaf = false /\
    HasCatchall node = true /\
    (HasRegex node = true ->
     forall c, In c (Node node) -> strings.HasPrefix (path c) ":" = true ->
               exists rx, dynamicRoutes v !! path c = Some rx /\
                          MatchString rx seg = false) /\
    forall fuel,
      match_ Get (S fuel) v node p leaf params method version = Returns (h, params').
Proof.
  intros Hstep.
  assert (Hrun : forall fuel,
             match_ Get (S fuel) v node p leaf params method version = Returns (h, params')).
  { intros fuel. cbn [match_]. rewrite Hstep. reflexivity. }
  unfold match_step in Hstep.
  destruct ((0 <? Z.of_nat (length (Handler node))) && leaf) eqn:Hleaf; [discriminate|].
  assert (Hfall : fallback v node p params method (HasCatchall node) = Done CatchAll h params' ->
                  exists seg rest n pre post,
                    p = seg :: rest /\ params' = params ++ [("*", seg)] /\
                    Node node = pre ++ n :: post /\ path n = "*" /\
                    (forall c, In c pre -> path c <> "*") /\
                    h = checkMethod v n method /\ HasCatchall node = true).
  { unfold fallback. destruct (HasCatchall node); [|discriminate].
    destruct (findCatchall (Node node)) as [n|] eqn:Hfind; [|discriminate].
    destruct p as [|seg rest]; [discriminate|]. intros [= <- <-].
    apply findCatchall_inv in Hfind as (pre & post & Hnode & Hn & Hpre).
    exists seg, rest, n, pre, post. repeat split; assumption. }
  destruct (HasRegex node) eqn:Hflag.
  - destruct (tryDynamic (dynamicRoutes v) (Node node) p) as [n0 s0 r0| |k] eqn:Hdyn.
    + destruct (Get node (path n0 :: r0) version) as [[? ?] ?]. discriminate.
    + destruct (Hfall Hstep) as (seg & rest & n & pre & post & -> & Hps & Hnode & Hn & Hpre & Hh & Hc).
      exists seg, rest, n, pre, post. repeat split; try assumption.
      intros _. apply (tryDynamic_miss_inv _ _ _ _ Hdyn).
    + discriminate.
  - destruct (Hfall Hstep) as (seg & rest & n & pre & post & -> & Hps & Hnode & Hn & Hpre & Hh & Hc).
    exists seg, rest, n, pre, post. repeat split; try assumption. discriminate.
Qed.

End Matching.


Lemma catchall_binds_one_segment_witness :
  exists seg rest n pre post,
    ["img"; "logo.png"] = seg :: rest /\
    [("*", "img")] = [] ++ [("*", seg)] /\
    Node (routes demo2) = pre ++ n :: post /\ path n = "*" /\
    (forall c, In c pre -> path c <> "*") /\
    UserHandler 2 = checkMethod demo2 n "GET" /\
    (0 <? Z.of_nat (length (Handler (routes demo2)))) && false = false /\
    HasCatchall (routes demo2) = true /\
    (HasRegex (routes demo2) = true ->
     forall c, In c (Node (routes demo2)) -> strings.HasPrefix (path c) ":" = true ->
               exists rx, dynamicRoutes demo2 !! path c = Some rx /\
                          MatchString rx seg = false) /\
    forall fuel,
      match_ Trie_Get (S fuel) demo2 (routes demo2) ["img"; "logo.png"] false [] "GET" ""
      = Returns (UserHandler 2, [("*", "img")]).
Proof.
  apply (catchall_binds_one_segment Trie_Get demo2 (routes demo2)
           ["img"; "logo.png"] false [] "GET" "" (UserHandler 2) [("*", "img")]).
  vm_compute. reflexivity.
Defined.

(** ** C3: [match] returns *)

Lemma height_child (t n : Trie) : In n (Node t) -> (height n < height t)%nat.
Proof.
  destruct t as [hs c r children pth]. cbn [Node height].
  induction children as [|m children IH]; intros Hin; [destruct Hin|].
  destruct Hin as [->|Hin]; [lia|]. specialize (IH Hin). lia.
Qed.

Lemma height_sub (t' t : Trie) : sub t' t -> (height t' < height t)%nat.
Proof.
  induction 1 as [n t Hin|t' n t Hin _ IH].
  - apply height_child. exact Hin.
  - pose proof (height_child t n Hin). lia.
Qed.

Lemma registered_child (dyn : dynamicSet) (t n : Trie) :
  registered dyn t = true -> In n (Node t) ->
  (strings.HasPrefix (path n) ":" = true -> is_Some (dyn !! path n)) /\
  registered dyn n = true.
Proof.
  destruct t as [hs c r children pth]. cbn [Node registered].
  induction children as [|m children IH]; intros Hreg Hin; [destruct Hin|].
  apply andb_prop in Hreg as [Hreg Hrest]. apply andb_prop in Hreg as [Hm Hsub].
  destruct Hin as [->|Hin]; [|apply IH; assumption].
  split; [|exact Hsub]. intros Hpre. rewrite Hpre in Hm.
  apply bool_decide_eq_true in Hm. exact Hm.
Qed.

Lemma registered_sub (dyn : dynamicSet) (t' t : Trie) :
  sub t' t -> registered dyn t = true -> registered dyn t' = true.
Proof.
  induction 1 as [n t Hin|t' n t Hin _ IH]; intros Hreg.
  - apply (registered_child dyn t n Hreg Hin).
  - apply IH. apply (registered_child dyn t n Hreg Hin).
Qed.

Lemma tryDynamic_no_fault (dyn : dynamicSet) (children : list Trie)
    (seg : string) (rest : list string) (k : panic) :
  (forall n, In n children -> strings.HasPrefix (path n) ":" = true ->
             is_Some (dyn !! path n)) ->
  tryDynamic dyn children (seg :: rest) <> Fault k.
Proof.
  intros Hreg. induction children as [|c children IH]; simpl; [discriminate|].
  assert (IH' : tryDynamic dyn children (seg :: rest) <> Fault k).
  { apply IH. intros n Hin. apply Hreg. right. exact Hin. }
  destruct (strings.HasPrefix (path c) ":") eqn:Hc; [|exact IH'].
  destruct (Hreg c (or_introl eq_refl) Hc) as [rx ->].
  destruct (MatchString rx seg); [discriminate | exact IH'].
Qed.

Lemma contains_child (children : list Trie) (n : Trie) :
  In n children -> exists c, contains children (path n) = Some c /\ In c children.
Proof.
  induction children as [|m children IH]; intros Hin; [destruct Hin|]. simpl.
  destruct (String.eqb_spec (path m) (path n)) as [_|Hne].
  - exists m. split; [reflexivity | left; reflexivity].
  - destruct Hin as [->|Hin]; [congruence|].
    destruct (IH Hin) as (c & Hc & Hinc). exists c. split; [exact Hc | right; exact Hinc].
Qed.

Lemma contains_In (children : list Trie) (key : string) (c : Trie) :
  contains children key = Some c -> In c children /\ path c = key.
Proof.
  induction children as [|m children IH]; simpl; [discriminate|].
  destruct (String.eqb_spec (path m) key) as [Hm|_].
  - intros [= ->]. split; [left; reflexivity | exact Hm].
  - intros H. destruct (IH H). split; [right|]; assumption.
Qed.

Lemma Trie_Get_below (p : list string) :
  forall t version, p <> [] ->
    exists t' p' leaf',
      Trie_Get t p version = (t', p', leaf') /\ p' <> [] /\ (t' = t \/ sub t' t).
Proof.
  induction p as [|key newpath IH]; intros t version Hp; [congruence|].
  cbn [Trie_Get]. destruct (contains (Node t) key) as [n|] eqn:Hc.
  - apply contains_In in Hc as [Hin _]. destruct newpath as [|k r].
    + exists n, [key], true. split; [reflexivity|]. split; [discriminate|].
      right. apply sub_child. exact Hin.
    + destruct (IH n version) as (t' & p' & leaf' & Heq & Hp' & Hsub); [discriminate|].
      exists t', p', leaf'. split; [exact Heq|]. split; [exact Hp'|]. right.
      destruct Hsub as [->|Hsub]; [apply sub_child | eapply sub_deeper]; eassumption.
  - exists t, (key :: newpath), false. split; [reflexivity|]. split; [exact Hp|].
    left. reflexivity.
Qed.

(** The specification's Resolve is a [Get] that [match] terminates on. *)
Lemma Trie_Get_descends : descends Trie_Get.
Proof.
  intros t n rest version Hin.
  destruct (contains_child (Node t) n Hin) as (c & Hc & Hinc).
  cbn [Trie_Get]. rewrite Hc. destruct rest as [|k r].
  - exists c, [path n], true. split; [reflexivity|]. split; [discriminate|].
    apply sub_child. exact Hinc.
  - destruct (Trie_Get_below (k :: r) c version) as (t' & p' & leaf' & Heq & Hp' & Hsub);
      [discriminate|].
    exists t', p', leaf'. split; [exact Heq|]. split; [exact Hp'|].
    destruct Hsub as [->|Hsub]; [apply sub_child | eapply sub_deeper]; eassumption.
Qed.

Section Totality.

Variable Get : Trie -> list string -> string -> Trie * list string * bool.
Hypothesis Get_descends : descends Get.

Variable v : Router.
Variables method version : string.

(** What a call of [match] that does not return hands to the next one. *)
Lemma match_step_descend (node : Trie) (p : list string) (leaf : bool)
    (params : Params) (node' : Trie) (p' : list string) (leaf' : bool)
    (params' : Params) :
  match_step Get v node p leaf params method version = Descend node' p' leaf' params' ->
  p' <> [] /\ sub node' node.
Proof.
  unfold match_step.
  destruct ((0 <? Z.of_nat (length (Handler node))) && leaf); [discriminate|].
  assert (Hfall : forall c, fallback v node p params method c
                            <> Descend node' p' leaf' params').
  { intros c. unfold fallback.
    destruct (if c then findCatchall (Node node) else None); [|discriminate].
    destruct p; discriminate. }
  destruct (HasRegex node); [|intros H; destruct (Hfall _ H)].
  destruct (tryDynamic (dynamicRoutes v) (Node node) p) as [n seg rest| |k] eqn:Hdyn;
    [|intros H; destruct (Hfall _ H)|discriminate].
  apply tryDynamic_hit_inv in Hdyn as (_ & pre & post & rx & Hnode & _).
  destruct (Get_descends node n rest version) as (t' & q' & l' & Heq & Hq & Hsub).
  { rewrite Hnode. apply in_or_app. right. left. reflexivity. }
  rewrite Heq. intros [= <- <- <- <-]. split; assumption.
Qed.

(** With a segment in hand and every dynamic child registered, a call of
    [match] does not panic. *)
Lemma match_step_no_crash (node : Trie) (p : list string) (leaf : bool)
    (params : Params) (k : panic) :
  p <> [] -> registered (dynamicRoutes v) node = true ->
  match_step Get v node p leaf params method version <> Crash k.
Proof.
  intros Hp Hreg. destruct p as [|seg rest]; [congruence|]. unfold match_step.
  destruct ((0 <? Z.of_nat (length (Handler node))) && leaf); [discriminate|].
  assert (Hfall : forall c, fallback v node (seg :: rest) params method c <> Crash k).
  { intros c. unfold fallback.
    destruct (if c then findCatchall (Node node) else None); discriminate. }
  destruct (HasRegex node); [|apply Hfall].
  destruct (tryDynamic (dynamicRoutes v) (Node node) (seg :: rest)) as [n s r| |k'] eqn:Hdyn.
  - destruct (Get node (path n :: r) version) as [[? ?] ?]. discriminate.
  - apply Hfall.
  - exfalso. apply (tryDynamic_no_fault (dynamicRoutes v) (Node node) seg rest k');
      [|exact Hdyn].
    intros n Hin. apply (registered_child _ _ _ Hreg Hin).
Qed.

(** What the return statement of each branch returns. *)
Lemma match_step_done (node : Trie) (p : list string) (leaf : bool)
    (params : Params) (b : branch) (h : http_Handler) (ps : Params) :
  match_step Get v node p leaf params method version = Done b h ps ->
  answer_of v method b node p params h ps.
Proof.
  unfold match_step.
  destruct ((0 <? Z.of_nat (length (Handler node))) && leaf).
  { intros [= <- <- <-]. split; reflexivity. }
  assert (Hfall : forall c, fallback v node p params method c = Done b h ps ->
                            answer_of v method b node p params h ps).
  { intros c. unfold fallback.
    destruct (if c then findCatchall (Node node) else None) as [n|] eqn:Hfind.
    - destruct c; [|discriminate]. destruct p as [|seg rest]; [discriminate|].
      intros [= <- <- <-]. exists n, seg, rest. repeat split; assumption.
    - intros [= <- <- <-]. split; reflexivity. }
  destruct (HasRegex node); [|apply Hfall].
  destruct (tryDynamic (dynamicRoutes v) (Node node) p) as [n s r| |k]; [| apply Hfall |discriminate].
  destruct (Get node (path n :: r) version) as [[? ?] ?]. discriminate.
Qed.

Lemma match_returns_within (fuel : nat) :
  forall node p leaf params,
    (height node <= fuel)%nat -> p <> [] ->
    registered (dynamicRoutes v) node = true ->
    exists node' p' leaf' params' b h ps,
      reaches Get v method version (node, p, leaf, params) (node', p', leaf', params') /\
      match_step Get v node' p' leaf' params' method version = Done b h ps /\
      match_ Get fuel v node p leaf params method version = Returns (h, ps).
Proof.
  induction fuel as [|fuel IH]; intros node p leaf params Hh Hp Hreg.
  { destruct node; simpl in Hh; lia. }
  cbn [match_].
  destruct (match_step Get v node p leaf params method version)
    as [b h ps|node' p' leaf' params'|k] eqn:Hstep.
  - exists node, p, leaf, params, b, h, ps.
    split; [apply reaches_here|]. split; [exact Hstep | reflexivity].
  - destruct (match_step_descend _ _ _ _ _ _ _ _ Hstep) as [Hp' Hsub].
    pose proof (height_sub _ _ Hsub) as Hlt.
    destruct (IH node' p' leaf' params') as (n2 & p2 & l2 & ps2 & b & h & ps & Hr & Hd & Hm);
      [lia | exact Hp' | exact (registered_sub _ _ _ Hsub Hreg) |].
    exists n2, p2, l2, ps2, b, h, ps.
    split; [eapply reaches_step; eassumption|]. split; assumption.
  - destruct (match_step_no_crash node p leaf params k Hp Hreg Hstep).
Qed.

End Totality.

Lemma match_more_fuel (Get : Trie -> list string -> string -> Trie * list string * bool)
    (v : Router) (method version : string) (fuel : nat) :
  forall fuel' node p leaf params r,
    match_ Get fuel v node p leaf params method version = Returns r ->
    (fuel <= fuel')%nat ->
    match_ Get fuel' v node p leaf params method version = Returns r.
Proof.
  induction fuel as [|fuel IH]; intros fuel' node p leaf params r Hrun Hle;
    [discriminate|].
  destruct fuel' as [|fuel']; [lia|]. cbn [match_] in *.
  destruct (match_step Get v node p leaf params method version); try exact Hrun.
  apply IH; [exact Hrun | lia].
Qed.

(** C3, as the code has it.  Let [Get] answer, for a path that starts with
    the token of a child, a node strictly below and a remainder that is not
    empty.  Then for every router, every node under which all dynamic
    children are registered, every remaining path that is not empty, every
    leaf flag, parameters, method and version, [match] returns: after some
    number of committed dynamic children it reaches a call that returns
    through one of its three return statements, and any fuel from the height
    of the node on gives that same handler and parameters.  The NoRoute
    return gives the NotFound handler with the parameters accumulated so
    far; the other two give the method resolution of a node, which is the
    NotAllowed handler when no entry of its table is "ALL" or the method.
    Each of the two handlers is the configured one, else the default. *)
Theorem match_returns
    (Get : Trie -> list string -> string -> Trie * list string * bool)
    (v : Router) (node : Trie) (p : list string) (leaf : bool)
    (params : Params) (method version : string) :
  descends Get ->
  p <> [] ->
  registered (dynamicRoutes v) node = true ->
  (exists node' p' leaf' params' b h ps,
      reaches Get v method version (node, p, leaf, params) (node', p', leaf', params') /\
      match_step Get v node' p' leaf' params' method version = Done b h ps /\
      answer_of v method b node' p' params' h ps /\
      forall fuel, (height node <= fuel)%nat ->
                   match_ Get fuel v node p leaf params method version = Returns (h, ps)) /\
  (forall n,
      (forall e, In e (Handler n) ->
                 MethodHandler.Method e <> "ALL" /\ MethodHandler.Method e <> method) ->
      checkMethod v n method = notAllowed v) /\
  notFound v = default http_NotFoundHandler (NotFoundHandler v) /\
  notAllowed v = default MethodNotAllowed (NotAllowedHandler v).
Proof.
  intros HGet Hp Hreg. split; [|split; [|split]].
  - destruct (match_returns_within Get HGet v method version (height node)
                node p leaf params (le_n _) Hp Hreg)
      as (node' & p' & leaf' & params' & b & h & ps & Hreach & Hdone & Hrun).
    exists node', p', leaf', params', b, h, ps.
    split; [exact Hreach|]. split; [exact Hdone|].
    split; [exact (match_step_done Get v method version _ _ _ _ _ _ _ Hdone)|].
    intros fuel Hfuel. exact (match_more_fuel Get v method version _ _ _ _ _ _ _ Hrun Hfuel).
  - intros n Hnone. unfold checkMethod.
    rewrite (proj2 (checkMethod_loop_none (Handler n) method) Hnone). reflexivity.
  - unfold notFound. destruct (NotFoundHandler v); reflexivity.
  - unfold notAllowed. destruct (NotAllowedHandler v); reflexivity.
Qed.

Lemma match_returns_witness :
  exists h ps,
    forall fuel, (height (routes demo) <= fuel)%nat ->
      match_ Trie_Get fuel demo (routes demo) ["a"; "x"; "b"] false [] "GET" ""
      = Returns (h, ps).
Proof.
  destruct (match_returns Trie_Get demo (routes demo) ["a"; "x"; "b"] false [] "GET" ""
              Trie_Get_descends ltac:(discriminate) eq_refl)
    as [(node' & p' & leaf' & params' & b & h & ps & _ & _ & _ & Hrun) _].
  exists h, ps. exact Hrun.
Defined.

(** C3 as the specification words it, for every node and every remaining
    segment list, fails on the empty list: a node with a catch-all child
    reads [path[0]], which panics, and the panic ends the call whatever the
    fuel.  It also fails on a node with a dynamic child whose name is not in
    the registry: [MatchString] is called on the nil pattern. *)
Lemma match_panics_on_empty_path :
  match_step Trie_Get New
    (mkTrie [] true false [mkTrie [] false false [] "*"] "") [] false [] "GET" ""
  = Crash IndexOutOfRange /\
  match_ Trie_Get 1 New
    (mkTrie [] true false [mkTrie [] false false [] "*"] "") [] false [] "GET" ""
  = Panics IndexOutOfRange /\
  match_ Trie_Get 100 New
    (mkTrie [] true false [mkTrie [] false false [] "*"] "") [] false [] "GET" ""
  = Panics IndexOutOfRange /\
  match_ Trie_Get 100 New
    (mkTrie [] false true [mkTrie [] false false [] ":id"] "") ["42"] false [] "GET" ""
  = Panics NilDereference.
Proof. repeat (split; [reflexivity|]). reflexivity. Qed.

(** ** C5, C6 and C10: registration *)

Lemma unknownDynamic_Some (dyn : dynamicSet) (pathParts : list string) (q : string) :
  unknownDynamic dyn pathParts = Some q <->
  exists pre post,
    pathParts = pre ++ q :: post /\
    strings.HasPrefix q ":" = true /\ dyn !! q = None /\
    forall p, In p pre -> strings.HasPrefix p ":" = true -> is_Some (dyn !! p).
Proof.
  induction pathParts as [|p pathParts IH]; simpl.
  - split; [discriminate|]. intros (pre & post & H & _). destruct pre; discriminate.
  - destruct (strings.HasPrefix p ":") eqn:Hp; [destruct (dyn !! p) as [rx|] eqn:Hrx|].
    + rewrite IH. split.
      * intros (pre & post & -> & Hq & Hnone & Hpre). exists (p :: pre), post.
        repeat split; try assumption.
        intros p' [<-|Hin] Hp'; [rewrite Hrx; eexists; reflexivity | apply Hpre; assumption].
      * intros (pre & post & H & Hq & Hnone & Hpre). destruct pre as [|p' pre].
        -- simpl in H. injection H as -> ->. congruence.
        -- simpl in H. injection H as -> ->. exists pre, post.
           repeat split; try assumption. intros p'' Hin. apply Hpre. right. exact Hin.
    + split.
      * intros [= ->]. exists [], pathParts. repeat split; try assumption. intros p' [].
      * intros (pre & post & H & Hq & Hnone & Hpre). destruct pre as [|p' pre].
        -- simpl in H. congruence.
        -- simpl in H. injection H as -> ->.
           destruct (Hpre p' (or_introl eq_refl) Hp) as [rx Hrx']. congruence.
    + rewrite IH. split.
      * intros (pre & post & -> & Hq & Hnone & Hpre). exists (p :: pre), post.
        repeat split; try assumption.
        intros p' [<-|Hin] Hp'; [congruence | apply Hpre; assumption].
      * intros (pre & post & H & Hq & Hnone & Hpre). destruct pre as [|p' pre].
        -- simpl in H. injection H as -> ->. congruence.
        -- simpl in H. injection H as -> ->. exists pre, post.
           repeat split; try assumption. intros p'' Hin. apply Hpre. right. exact Hin.
Qed.

Lemma unknownDynamic_None (dyn : dynamicSet) (pathParts : list string) :
  unknownDynamic dyn pathParts = None <->
  forall p, In p pathParts -> strings.HasPrefix p ":" = true -> is_Some (dyn !! p).
Proof.
  induction pathParts as [|p pathParts IH]; simpl.
  - split; [intros _ p [] | reflexivity].
  - destruct (strings.HasPrefix p ":") eqn:Hp; [destruct (dyn !! p) as [rx|] eqn:Hrx|].
    + rewrite IH. split.
      * intros H p' [<-|Hin] Hp'; [rewrite Hrx; eexists; reflexivity | apply H; assumption].
      * intros H p' Hin. apply H. right. exact Hin.
    + split; [discriminate|]. intros H.
      destruct (H p (or_introl eq_refl) Hp) as [rx Hrx']. congruence.
    + rewrite IH. split.
      * intros H p' [<-|Hin] Hp'; [congruence | apply H; assumption].
      * intros H p' Hin. apply H. right. exact Hin.
Qed.

Section Registration.

Variable Set_ : Trie -> list string -> http_Handler -> string -> string
                -> option error * Trie.

Lemma Handle_unfold (pth : string) (handler : http_Handler)
    (httpMethods : list string) (v : Router) :
  Handle Set_ pth handler httpMethods v
  = match unknownDynamic (dynamicRoutes v) (splitPath (snd (cutVersion pth))) with
    | Some p => (Some (ErrDynamicNotFound p), v)
    | None =>
        let '(err, t) := Set_ (routes v) (splitPath (snd (cutVersion pth))) handler
                           (methodsOf httpMethods) (fst (cutVersion pth)) in
        (err, set_routes v t)
    end.
Proof. unfold Handle. destruct (cutVersion pth) as [version pth']. reflexivity. Qed.


(** C6. When a part of the path, cut of its version and split at the
    slashes, starts with ":" and is not a key of the registry, [Handle]
    returns the error that names the first such part; when every part that
    starts with ":" is a key, [Handle] goes on to [Trie.Set]; and [Handle]
    returns anything but that error only when every such part is a key. *)
Theorem Handle_unknown_dynamic_segment (pth : string) (handler : http_Handler)
    (httpMethods : list string) (v : Router) :
  let pathParts := splitPath (snd (cutVersion pth)) in
  ((exists p, In p pathParts /\ strings.HasPrefix p ":" = true /\
              dynamicRoutes v !! p = None) ->
   exists pre q post,
     pathParts = pre ++ q :: post /\
     strings.HasPrefix q ":" = true /\ dynamicRoutes v !! q = None /\
     (forall p, In p pre -> strings.HasPrefix p ":" = true ->
                is_Some (dynamicRoutes v !! p)) /\
     Handle Set_ pth handler httpMethods v = (Some (ErrDynamicNotFound q), v)) /\
  ((forall p, In p pathParts -> strings.HasPrefix p ":" = true ->
              is_Some (dynamicRoutes v !! p)) ->
   Handle Set_ pth handler httpMethods v
   = let '(err, t) := Set_ (routes v) pathParts handler (methodsOf httpMethods)
                        (fst (cutVersion pth)) in
     (err, set_routes v t)) /\
  ((forall q, fst (Handle Set_ pth handler httpMethods v) <> Some (ErrDynamicNotFound q)) ->
   forall p, In p pathParts -> strings.HasPrefix p ":" = true ->
             is_Some (dynamicRoutes v !! p)).
Proof.
  intros pathParts. subst pathParts. rewrite Handle_unfold.
  destruct (unknownDynamic (dynamicRoutes v) (splitPath (snd (cutVersion pth))))
    as [q|] eqn:Hu.
  - pose proof (proj1 (unknownDynamic_Some _ _ _) Hu) as (pre & post & Hparts & Hq & Hnone & Hpre).
    split; [|split].
    + intros _. exists pre, q, post. repeat split; assumption.
    + intros Hall. exfalso.
      destruct (Hall q) as [rx Hrx]; [rewrite Hparts; apply in_or_app; right; left; reflexivity
                                     | exact Hq | congruence].
    + intros Hne. exfalso. apply (Hne q). reflexivity.
  - pose proof (proj1 (unknownDynamic_None _ _) Hu) as Hall.
    split; [|split].
    + intros (p & Hin & Hp & Hnone). destruct (Hall p Hin Hp) as [rx Hrx]. congruence.
    + intros _. reflexivity.
    + intros _. exact Hall.
Qed.

(** C10. When a part of the path starts with ":" and is not a key of the
    registry, [Handle] returns without calling [Trie.Set]: the router it
    leaves is the router it was given, trie and registry included, and its
    result is the same whatever [Trie.Set] would have done. *)
Theorem Handle_unknown_dynamic_leaves_router (pth : string) (handler : http_Handler)
    (httpMethods : list string) (v : Router) :
  (exists p, In p (splitPath (snd (cutVersion pth))) /\
             strings.HasPrefix p ":" = true /\ dynamicRoutes v !! p = None) ->
  snd (Handle Set_ pth handler httpMethods v) = v /\
  routes (snd (Handle Set_ pth handler httpMethods v)) = routes v /\
  dynamicRoutes (snd (Handle Set_ pth handler httpMethods v)) = dynamicRoutes v /\
  (exists q, fst (Handle Set_ pth handler httpMethods v) = Some (ErrDynamicNotFound q)) /\
  forall Set' : Trie -> list string -> http_Handler -> string -> string
                -> option error * Trie,
    Handle Set' pth handler httpMethods v = Handle Set_ pth handler httpMethods v.
Proof.
  intros (p & Hin & Hp & Hnone).
  assert (Hu : exists q, unknownDynamic (dynamicRoutes v) (splitPath (snd (cutVersion pth)))
                         = Some q).
  { destruct (unknownDynamic (dynamicRoutes v) (splitPath (snd (cutVersion pth)))) as [q|] eqn:Hu;
      [exists q; reflexivity|].
    destruct (proj1 (unknownDynamic_None _ _) Hu p Hin Hp) as [rx Hrx]. congruence. }
  destruct Hu as [q Hu].
  assert (Hret : forall S', Handle S' pth handler httpMethods v
                            = (Some (ErrDynamicNotFound q), v)).
  { intros S'. unfold Handle. destruct (cutVersion pth) as [version pth'].
    simpl in Hu. rewrite Hu. reflexivity. }
  rewrite (Hret Set_). repeat split.
  - exists q. reflexivity.
  - intros Set'. apply Hret.
Qed.

End Registration.


Lemma Handle_unknown_dynamic_segment_witness :
  exists pre q post,
    splitPath (snd (cutVersion "/x/:zz/y")) = pre ++ q :: post /\
    strings.HasPrefix q ":" = true /\ dynamicRoutes demo !! q = None /\
    (forall p, In p pre -> strings.HasPrefix p ":" = true ->
               is_Some (dynamicRoutes demo !! p)) /\
    Handle Trie_Set "/x/:zz/y" (UserHandler 7) ["GET"] demo
    = (Some (ErrDynamicNotFound q), demo).
Proof.
  apply (proj1 (Handle_unknown_dynamic_segment Trie_Set "/x/:zz/y" (UserHandler 7) ["GET"] demo)).
  exists ":zz". split; [right; left; reflexivity|]. split; reflexivity.
Defined.

Lemma Handle_unknown_dynamic_leaves_router_witness :
  snd (Handle Trie_Set "/x/:zz/y" (UserHandler 7) ["GET"] demo) = demo.
Proof.
  apply (proj1 (Handle_unknown_dynamic_leaves_router Trie_Set "/x/:zz/y"
                  (UserHandler 7) ["GET"] demo
                  (ex_intro _ ":zz" (conj (or_intror (or_introl eq_refl))
                                          (conj eq_refl eq_refl))))).
Defined.

(** ** C9: a lookup in the memory other lookups left *)

Lemma drop_set_first (arr : list string) (off : nat) (seg x : string) (rest : list string) :
  drop off arr = seg :: rest -> drop off (<[off := x]> arr) = x :: rest.
Proof.
  revert arr. induction off as [|off IH]; intros arr H.
  - rewrite drop_0 in H. rewrite H. reflexivity.
  - destruct arr as [|a arr]; [discriminate|]. apply (IH arr). exact H.
Qed.

Lemma slice_read_set_first (w : world) (sl : slice) (seg x : string) (rest : list string) :
  slice_read w sl = seg :: rest ->
  slice_read (slice_set_first w sl x) sl = x :: rest.
Proof.
  unfold slice_read, slice_set_first. cbn [w_arrays].
  rewrite list_lookup_alter_eq.
  destruct (w_arrays w !! fst sl) as [arr|]; cbn [default fmap option_fmap option_map].
  - apply drop_set_first.
  - rewrite drop_nil. discriminate.
Qed.

Lemma drop_by_length (q p' : list string) (k : nat) :
  p' = drop k q -> drop (length q - length p') q = p'.
Proof.
  intros ->. rewrite length_drop.
  destruct (le_lt_dec (length q) k) as [Hle|Hlt].
  - rewrite (drop_ge q k) by lia. replace (length q - (length q - k))%nat with (length q) by lia.
    apply drop_ge. lia.
  - f_equal. lia.
Qed.

Lemma slice_read_part (w : world) (sl : slice) (p' : list string) (k : nat) :
  p' = drop k (slice_read w sl) ->
  slice_read w (fst sl, (snd sl + (length (slice_read w sl) - length p'))%nat) = p'.
Proof.
  intros Hk. pose proof (drop_by_length _ _ _ Hk) as Hd.
  unfold slice_read in *. cbn [fst snd]. rewrite <- drop_drop. exact Hd.
Qed.

Section StoreFacts.

Variable Get : Trie -> list string -> string -> Trie * list string * bool.
Hypothesis Get_remainder : remainder Get.

Variables method version : string.

Lemma fallback_store_sound (node : Trie) (p : list string) (params : Params)
    (catchall : bool) (w : world) :
  fallback_store node p params method catchall w
  = (match fallback (w_router w) node p params method catchall with
     | Done _ h ps => Returns (h, ps)
     | Descend _ _ _ _ => OutOfFuel
     | Crash k => Panics k
     end, w).
Proof.
  unfold fallback_store, fallback.
  destruct (if catchall then findCatchall (Node node) else None); [destruct p|]; reflexivity.
Qed.

Lemma fallback_not_descend (v : Router) (node : Trie) (p : list string) (params : Params)
    (catchall : bool) (node' : Trie) (p' : list string) (leaf' : bool) (params' : Params) :
  fallback v node p params method catchall <> Descend node' p' leaf' params'.
Proof.
  unfold fallback. destruct (if catchall then findCatchall (Node node) else None);
    [destruct p|]; discriminate.
Qed.

(** [match] in the world answers what [match] answers on the elements of its
    slice, and leaves the router and every array but the one of its slice
    as they were. *)
Lemma match_store_sound (fuel : nat) :
  forall node sl leaf params w,
    fst (match_store Get fuel node sl leaf params method version w)
    = match_ Get fuel (w_router w) node (slice_read w sl) leaf params method version /\
    w_router (snd (match_store Get fuel node sl leaf params method version w)) = w_router w /\
    length (w_arrays (snd (match_store Get fuel node sl leaf params method version w)))
    = length (w_arrays w) /\
    forall l, l <> fst sl ->
      w_arrays (snd (match_store Get fuel node sl leaf params method version w)) !! l
      = w_arrays w !! l.
Proof.
  induction fuel as [|fuel IH]; intros node sl leaf params w; [repeat split|].
  cbn [match_store match_]. unfold match_step.
  destruct ((0 <? Z.of_nat (length (Handler node))) && leaf); [repeat split|].
  assert (Hfall : forall c : bool,
             fst (fallback_store node (slice_read w sl) params method c w)
             = match fallback (w_router w) node (slice_read w sl) params method c with
               | Done _ h ps => Returns (h, ps)
               | Descend node' p' leaf' params' =>
                   match_ Get fuel (w_router w) node' p' leaf' params' method version
               | Crash k => Panics k
               end /\
             w_router (snd (fallback_store node (slice_read w sl) params method c w))
             = w_router w /\
             length (w_arrays (snd (fallback_store node (slice_read w sl) params method c w)))
             = length (w_arrays w) /\
             forall l, l <> fst sl ->
               w_arrays (snd (fallback_store node (slice_read w sl) params method c w)) !! l
               = w_arrays w !! l).
  { intros c. rewrite fallback_store_sound. cbn [fst snd].
    split; [|repeat split].
    pose proof (fallback_not_descend (w_router w) node (slice_read w sl) params c) as Hnd.
    destruct (fallback (w_router w) node (slice_read w sl) params method c);
      [reflexivity | destruct (Hnd _ _ _ _ eq_refl) | reflexivity]. }
  destruct (HasRegex node); [|apply Hfall].
  destruct (tryDynamic (dynamicRoutes (w_router w)) (Node node) (slice_read w sl))
    as [n seg rest| |k] eqn:Hdyn; [|apply Hfall|repeat split].
  apply tryDynamic_hit_inv in Hdyn as [Hread _].
  pose proof (slice_read_set_first w sl seg (path n) rest Hread) as Hread'.
  rewrite Hread'.
  destruct (Get_remainder node (path n :: rest) version) as (k & Hk & _).
  destruct (Get node (path n :: rest) version) as [[node' p'] leaf'] eqn:HGet.
  cbn [fst snd] in Hk.
  set (w1 := slice_set_first w sl (path n)) in *.
  set (sl' := (fst sl, (snd sl + (length (path n :: rest) - length p'))%nat)).
  destruct (IH node' sl' leaf' (Params_Add params (path n) seg) w1) as (Hr & Hv & Hlen & Hframe).
  assert (Hp' : slice_read w1 sl' = p').
  { subst sl'. rewrite <- Hread'. apply (slice_read_part w1 sl p' k).
    rewrite Hread'. exact Hk. }
  rewrite Hp' in Hr.
  split; [exact Hr|]. split; [exact Hv|]. split.
  - rewrite Hlen. subst w1. unfold slice_set_first. cbn [w_arrays]. apply length_alter.
  - intros l Hl. rewrite (Hframe l Hl). subst w1. unfold slice_set_first. cbn [w_arrays].
    apply list_lookup_alter_ne. congruence.
Qed.

(** A lookup in the world answers what the lookup on values answers,
    whatever arrays the world holds, adds the array of its request and
    leaves the router and the arrays that were there as they were. *)
Lemma Match_store_sound (fuel : nat) (urlPath : string) (w : world) :
  fst (Match_store Get fuel urlPath method version w)
  = (let '(node, p, leaf) := Get (routes (w_router w)) (splitPath urlPath) version in
     match_ Get fuel (w_router w) node p leaf [] method version) /\
  w_router (snd (Match_store Get fuel urlPath method version w)) = w_router w /\
  length (w_arrays (snd (Match_store Get fuel urlPath method version w)))
  = S (length (w_arrays w)) /\
  forall l, (l < length (w_arrays w))%nat ->
    w_arrays (snd (Match_store Get fuel urlPath method version w)) !! l = w_arrays w !! l.
Proof.
  unfold Match_store.
  set (w0 := mkWorld (w_router w) (w_arrays w ++ [splitPath urlPath])).
  assert (Hread : slice_read w0 (length (w_arrays w), 0%nat) = splitPath urlPath).
  { unfold slice_read. cbn [fst snd w_arrays w0].
    rewrite list_lookup_middle by reflexivity. reflexivity. }
  rewrite Hread. cbn [w_router w0].
  destruct (Get_remainder (routes (w_router w)) (splitPath urlPath) version) as (k & Hk & _).
  destruct (Get (routes (w_router w)) (splitPath urlPath) version) as [[node p'] leaf].
  cbn [fst snd] in Hk. cbn [fst snd].
  set (sl' := (length (w_arrays w), (length (splitPath urlPath) - length p')%nat)).
  destruct (match_store_sound fuel node sl' leaf [] w0) as (Hr & Hv & Hlen & Hframe).
  assert (Hp' : slice_read w0 sl' = p').
  { pose proof (slice_read_part w0 (length (w_arrays w), 0%nat) p' k) as H.
    rewrite Hread in H. cbn [fst snd] in H. apply H. exact Hk. }
  rewrite Hp' in Hr. split; [exact Hr|]. split; [exact Hv|]. split.
  - rewrite Hlen. cbn [w_arrays w0]. rewrite List.length_app. simpl. lia.
  - intros l Hl. rewrite Hframe by (cbn [fst sl']; lia).
    cbn [w_arrays w0]. apply lookup_app_l. exact Hl.
Qed.

End StoreFacts.

Lemma Trie_Get_remainder : remainder Trie_Get.
Proof.
  intros t p version. revert t.
  induction p as [|key newpath IH]; intros t.
  - exists 0%nat. split; [reflexivity | congruence].
  - cbn [Trie_Get]. destruct (contains (Node t) key) as [n|].
    + destruct newpath as [|k1 r].
      * exists 0%nat. split; [reflexivity | simpl; lia].
      * destruct (IH n) as (k' & Hk' & Hlt). exists (S k'). split; [exact Hk'|].
        intros _. specialize (Hlt ltac:(discriminate)). simpl in *. lia.
    + exists 0%nat. split; [reflexivity | simpl; lia].
Qed.

(** C9. Matching the root path is repeatable.  [splitPath] of "/" is the
    root token alone.  Take any world, of a router and of the arrays that
    earlier requests and registrations allocated, and a [Trie.Get] that
    answers a part of the path it is given.  Two lookups of "/" in a row,
    the second in the world the first left, give the same outcome, which is
    that of [match] on the values; this although the first may have written
    into its path, for the array it wrote into is the one [splitPath]
    allocated for it.  The router, trie and registry, is the same after
    both, every array that was there is as it was, and two arrays were
    added.  When moreover [Get] answers a node at or below the one it is
    called on, strictly below when the path starts with a child's token,
    every dynamic child of the trie is registered and the fuel is at least
    the height of the trie, both lookups return, with the same handler and
    the same parameters. *)
Theorem Match_store_root_repeatable
    (Get : Trie -> list string -> string -> Trie * list string * bool)
    (fuel : nat) (method version : string) (w : world) :
  remainder Get ->
  splitPath "/" = ["/"] /\
  let first := Match_store Get fuel "/" method version w in
  let second := Match_store Get fuel "/" method version (snd first) in
  fst second = fst first /\
  fst first = (let '(node, p, leaf) := Get (routes (w_router w)) ["/"] version in
               match_ Get fuel (w_router w) node p leaf [] method version) /\
  w_router (snd first) = w_router w /\
  w_router (snd second) = w_router w /\
  (forall l, (l < length (w_arrays w))%nat ->
             w_arrays (snd second) !! l = w_arrays w !! l) /\
  length (w_arrays (snd second)) = S (S (length (w_arrays w))) /\
  (within Get -> descends Get ->
   registered (dynamicRoutes (w_router w)) (routes (w_router w)) = true ->
   (height (routes (w_router w)) <= fuel)%nat ->
   exists h ps, fst first = Returns (h, ps) /\ fst second = Returns (h, ps)).
Proof.
  intros Hrem. split; [reflexivity|]. cbv zeta.
  destruct (Match_store_sound Get Hrem method version fuel "/" w) as (Hr1 & Hv1 & Hlen1 & Hf1).
  destruct (Match_store_sound Get Hrem method version fuel "/"
              (snd (Match_store Get fuel "/" method version w)))
    as (Hr2 & Hv2 & Hlen2 & Hf2).
  rewrite Hv1 in Hr2, Hv2. change (splitPath "/") with ["/"] in Hr1, Hr2.
  assert (Hsame : fst (Match_store Get fuel "/" method version
                         (snd (Match_store Get fuel "/" method version w)))
                  = fst (Match_store Get fuel "/" method version w))
    by (rewrite Hr1, Hr2; reflexivity).
  split; [exact Hsame|]. split; [exact Hr1|]. split; [exact Hv1|]. split; [exact Hv2|].
  split; [|split].
  - intros l Hl. rewrite Hf2 by (rewrite Hlen1; lia). apply Hf1. exact Hl.
  - rewrite Hlen2, Hlen1. reflexivity.
  - intros Hwithin Hdesc Hreg Hfuel. rewrite Hsame, Hr1.
    pose proof (Hwithin (routes (w_router w)) ["/"] version) as Hsub.
    destruct (Hrem (routes (w_router w)) ["/"] version) as (k & Hk & Hlt).
    destruct (Get (routes (w_router w)) ["/"] version) as [[node p] leaf].
    cbn [fst snd] in Hsub, Hk.
    assert (Hp : p <> []).
    { specialize (Hlt ltac:(discriminate)). simpl in Hlt.
      assert (k = 0%nat) as -> by lia. rewrite Hk. discriminate. }
    assert (Hreg' : registered (dynamicRoutes (w_router w)) node = true).
    { destruct Hsub as [->|Hsub]; [exact Hreg | exact (registered_sub _ _ _ Hsub Hreg)]. }
    assert (Hh : (height node <= fuel)%nat).
    { destruct Hsub as [->|Hsub]; [exact Hfuel | pose proof (height_sub _ _ Hsub); lia]. }
    destruct (match_returns_within Get Hdesc (w_router w) method version fuel
                node p leaf [] Hh Hp Hreg')
      as (_ & _ & _ & _ & _ & h & ps & _ & _ & Hrun).
    exists h, ps. split; exact Hrun.
Qed.

Lemma Match_store_root_repeatable_witness :
  fst (Match_store Trie_Get 3 "/" "GET" ""
         (snd (Match_store Trie_Get 3 "/" "GET" ""
                 (mkWorld any_segment [["left"; "over"]]))))
  = fst (Match_store Trie_Get 3 "/" "GET" "" (mkWorld any_segment [["left"; "over"]])).
Proof.
  apply (proj1 (proj2 (Match_store_root_repeatable Trie_Get 3 "GET" ""
                         (mkWorld any_segment [["left"; "over"]]) Trie_Get_remainder))).
Defined.

(** The write is there: the lookup of "/" on [any_segment] commits the
    dynamic child and leaves its token in the array of the request, beside
    the array that was in the world. *)
Example any_segment_writes_its_own_array :
  Match_store Trie_Get 3 "/" "GET" "" (mkWorld any_segment [["left"; "over"]])
  = (Returns (UserHandler 4, [(":any", "/")]),
     mkWorld any_segment [["left"; "over"]; [":any"]]).
Proof. reflexivity. Qed.

(** ** The matcher over the specification's trie operations *)

Lemma contains_first (pre post : list Trie) (n : Trie) :
  (forall c, In c pre -> path c <> path n) ->
  contains (pre ++ n :: post) (path n) = Some n.
Proof.
  intros Hpre. induction pre as [|c pre IH]; simpl.
  - rewrite String.eqb_refl. reflexivity.
  - destruct (String.eqb_spec (path c) (path n)) as [Heq|_].
    + destruct (Hpre c (or_introl eq_refl) Heq).
    + apply IH. intros c' Hin. apply Hpre. right. exact Hin.
Qed.

(** With the specification's Resolve, the node [match] goes on with after
    committing a dynamic child is that child or a node below it. *)
Lemma Trie_Get_enters_committed_child (dyn : dynamicSet) (node : Trie)
    (pre post : list Trie) (n : Trie) (rx : Regexp) (seg : string)
    (rest : list string) (version : string) :
  Node node = pre ++ n :: post ->
  (forall c, In c pre -> strings.HasPrefix (path c) ":" = true ->
             exists rx', dyn !! path c = Some rx' /\ MatchString rx' seg = false) ->
  strings.HasPrefix (path n) ":" = true ->
  dyn !! path n = Some rx ->
  MatchString rx seg = true ->
  exists t' p' leaf',
    Trie_Get node (path n :: rest) version = (t', p', leaf') /\
    p' <> [] /\ (t' = n \/ sub t' n).
Proof.
  intros Hnode Hpre Hn Hrx Hm. cbn [Trie_Get]. rewrite Hnode, contains_first.
  - destruct rest as [|k r].
    + exists n, [path n], true. split; [reflexivity|]. split; [discriminate | left; reflexivity].
    + apply Trie_Get_below. discriminate.
  - intros c Hin Heq.
    destruct (Hpre c Hin) as (rx' & Hrx' & Hm'); [rewrite Heq; exact Hn|].
    rewrite Heq, Hrx in Hrx'. injection Hrx' as <-. congruence.
Qed.

(** The specification's examples: a dynamic segment that matches, one that
    does not, and a method that is not registered. *)
Example demo_found :
  fst (Match Trie_Get 4 "/a/42/b" "GET" "" demo)
  = Returns (UserHandler 1, [(":id", "42")]).
Proof. reflexivity. Qed.

Example demo_not_found :
  fst (Match Trie_Get 4 "/a/xx/b" "GET" "" demo) = Returns (http_NotFoundHandler, []).
Proof. reflexivity. Qed.

Example demo_not_allowed :
  fst (Match Trie_Get 4 "/a/42/b" "DELETE" "" demo)
  = Returns (MethodNotAllowed, [(":id", "42")]).
Proof. reflexivity. Qed.

(** A route registered without methods answers every method. *)
Example demo2_any_method (method : string) :
  fst (Match Trie_Get 4 "/hello" method "" demo2) = Returns (UserHandler 3, []).
Proof. reflexivity. Qed.

(** The catch-all binds one segment, whatever follows it. *)
Example demo2_catchall :
  fst (Match Trie_Get 4 "/img/logo.png" "GET" "" demo2)
  = Returns (UserHandler 2, [("*", "img")]).
Proof. reflexivity. Qed.

(** No backtracking: [":id"] accepts "42" and is committed; nothing below it
    carries "c", and the sibling [":any"], which leads to a handler, is not
    tried. *)
Example siblings_no_backtracking :
  fst (Match Trie_Get 4 "/42/c" "GET" "" siblings)
  = Returns (http_NotFoundHandler, [(":id", "42")]) /\
  fst (Match Trie_Get 4 "/x/c" "GET" "" siblings)
  = Returns (UserHandler 2, [(":any", "x")]).
Proof. split; reflexivity. Qed.

(** ** Routers built by registration satisfy what [match] relies on *)

Lemma registered_iff (dyn : dynamicSet) (t : Trie) :
  registered dyn t = true <->
  forall n, In n (Node t) ->
            (strings.HasPrefix (path n) ":" = true -> is_Some (dyn !! path n)) /\
            registered dyn n = true.
Proof.
  split; [intros H n Hin; exact (registered_child dyn t n H Hin)|].
  destruct t as [hs c r children pth]. cbn [Node registered].
  induction children as [|m children IH]; intros H; [reflexivity|].
  destruct (H m (or_introl eq_refl)) as [Hm Hsub].
  rewrite Hsub, IH by (intros n Hin; apply H; right; exact Hin).
  destruct (strings.HasPrefix (path m) ":"); [|reflexivity].
  rewrite (bool_decide_eq_true_2 _ (Hm eq_refl)). reflexivity.
Qed.

Lemma registered_more (dyn dyn' : dynamicSet) :
  (forall k, is_Some (dyn !! k) -> is_Some (dyn' !! k)) ->
  forall h t, (height t <= h)%nat -> registered dyn t = true -> registered dyn' t = true.
Proof.
  intros Hmore. induction h as [|h IH]; intros t Hh Hreg.
  { destruct t; simpl in Hh; lia. }
  apply registered_iff. intros n Hin.
  destruct (registered_child dyn t n Hreg Hin) as [Hn Hsub].
  split; [intros Hp; apply Hmore, Hn, Hp|].
  apply IH; [|exact Hsub]. pose proof (height_child t n Hin). lia.
Qed.

Lemma Trie_Set_path (p : list string) (t : Trie) (handler : http_Handler)
    (method version : string) :
  path (snd (Trie_Set t p handler method version)) = path t.
Proof.
  destruct p as [|key newpath]; [reflexivity|]. cbn [Trie_Set].
  destruct (match newpath with
            | [] => _
            | _ :: _ => Trie_Set _ newpath handler method version
            end) as [err node'].
  destruct (contains (Node t) key); reflexivity.
Qed.

Lemma In_replaceChild (children : list Trie) (key : string) (n' n : Trie) :
  In n (replaceChild children key n') -> In n children \/ n = n'.
Proof.
  induction children as [|c children IH]; simpl; [intros []|].
  destruct (String.eqb (path c) key).
  - intros [<-|Hin]; [right; reflexivity | left; right; exact Hin].
  - intros [<-|Hin]; [left; left; reflexivity|].
    destruct (IH Hin) as [H|H]; [left; right; exact H | right; exact H].
Qed.

Lemma Trie_Set_registered (dyn : dynamicSet) (p : list string) :
  forall t handler method version,
    registered dyn t = true ->
    (forall q, In q p -> strings.HasPrefix q ":" = true -> is_Some (dyn !! q)) ->
    registered dyn (snd (Trie_Set t p handler method version)) = true.
Proof.
  induction p as [|key newpath IH]; intros t handler method version Hreg Hp;
    [exact Hreg|].
  cbn [Trie_Set].
  set (found := contains (Node t) key).
  set (node := default (mkTrie [] false false [] key) found).
  assert (Hnode : registered dyn node = true /\ path node = key).
  { subst node. destruct found as [c|] eqn:Hc; [|split; reflexivity].
    apply contains_In in Hc as [Hin Hkey]. split; [|exact Hkey].
    apply (registered_child dyn t c Hreg Hin). }
  destruct Hnode as [Hnreg Hnpath].
  destruct (match newpath with
            | [] => _
            | _ :: _ => Trie_Set node newpath handler method version
            end) as [err node'] eqn:Hrec.
  assert (Hnode' : registered dyn node' = true /\ path node' = key).
  { destruct newpath as [|k r].
    - injection Hrec as _ <-. split; [|exact Hnpath].
      apply registered_iff. cbn [Node]. apply registered_iff. exact Hnreg.
    - assert (Hsnd : node' = snd (Trie_Set node (k :: r) handler method version))
        by (rewrite Hrec; reflexivity).
      rewrite Hsnd. split; [|rewrite Trie_Set_path; exact Hnpath].
      apply IH; [exact Hnreg|]. intros q Hin. apply Hp. right. exact Hin. }
  destruct Hnode' as [Hreg' Hpath'].
  assert (Hnew : (strings.HasPrefix (path node') ":" = true -> is_Some (dyn !! path node'))
                 /\ registered dyn node' = true).
  { split; [|exact Hreg']. rewrite Hpath'. apply Hp. left. reflexivity. }
  destruct found as [c|]; cbn [snd]; apply registered_iff; cbn [Node]; intros n Hin.
  - apply In_replaceChild in Hin as [Hin| ->]; [|exact Hnew].
    apply (registered_child dyn t n Hreg Hin).
  - apply in_app_or in Hin as [Hin|[<-|[]]]; [|exact Hnew].
    apply (registered_child dyn t n Hreg Hin).
Qed.

(** [New], [AddRegex] and [Handle] keep every dynamic child of the trie
    registered. *)
Lemma registered_New : registered (dynamicRoutes New) (routes New) = true.
Proof. reflexivity. Qed.

Lemma AddRegex_registered (name : string) (rx : Regexp) (v : Router) :
  registered (dynamicRoutes v) (routes v) = true ->
  registered (dynamicRoutes (snd (AddRegex name rx v))) (routes (snd (AddRegex name rx v)))
  = true.
Proof.
  cbn [AddRegex snd dynamicRoutes routes]. apply (registered_more _ _) with (h := height (routes v)).
  - intros k Hk. destruct (decide (name = k)) as [->|Hne].
    + rewrite lookup_insert_eq. eexists; reflexivity.
    + rewrite lookup_insert_ne by exact Hne. exact Hk.
  - lia.
Qed.

Lemma Handle_registered (pth : string) (handler : http_Handler)
    (httpMethods : list string) (v : Router) :
  registered (dynamicRoutes v) (routes v) = true ->
  registered (dynamicRoutes (snd (Handle Trie_Set pth handler httpMethods v)))
             (routes (snd (Handle Trie_Set pth handler httpMethods v))) = true.
Proof.
  intros Hreg. rewrite Handle_unfold.
  destruct (unknownDynamic (dynamicRoutes v) (splitPath (snd (cutVersion pth)))) eqn:Hu;
    [exact Hreg|].
  pose proof (Trie_Set_registered (dynamicRoutes v) (splitPath (snd (cutVersion pth)))
                (routes v) handler (methodsOf httpMethods) (fst (cutVersion pth)) Hreg
                (proj1 (unknownDynamic_None _ _) Hu)) as H.
  destruct (Trie_Set (routes v) (splitPath (snd (cutVersion pth))) handler
              (methodsOf httpMethods) (fst (cutVersion pth))) as [err t].
  exact H.
Qed.

Lemma splitPath_nonempty (p : string) : splitPath p <> [].
Proof.
  unfold splitPath. destruct (strings.FieldsFunc p _); discriminate.
Qed.

(** On such a router, over the specification's Resolve, every request is
    answered: [match] returns for every path, method and version. *)
Lemma Match_total (v : Router) (urlPath method version : string) :
  registered (dynamicRoutes v) (routes v) = true ->
  exists h ps,
    forall fuel, (height (routes v) <= fuel)%nat ->
      fst (Match Trie_Get fuel urlPath method version v) = Returns (h, ps).
Proof.
  intros Hreg. unfold Match.
  destruct (Trie_Get_below (splitPath urlPath) (routes v) version (splitPath_nonempty _))
    as (node & p & leaf & -> & Hp & Hsub).
  assert (Hreg' : registered (dynamicRoutes v) node = true).
  { destruct Hsub as [->|Hsub]; [exact Hreg | exact (registered_sub _ _ _ Hsub Hreg)]. }
  assert (Hh : (height node <= height (routes v))%nat).
  { destruct Hsub as [->|Hsub]; [lia | pose proof (height_sub _ _ Hsub); lia]. }
  destruct (match_returns_within Trie_Get Trie_Get_descends v method version
              (height node) node p leaf [] (le_n _) Hp Hreg')
    as (_ & _ & _ & _ & _ & h & ps & _ & _ & Hrun).
  exists h, ps. intros fuel Hfuel. cbn [fst].
  apply (match_more_fuel Trie_Get v method version _ _ _ _ _ _ _ Hrun). lia.
Qed.

(** * Further properties of the code *)

(** ** The version cut of [Handle] *)

Lemma HasPrefix_char (c : ascii) (s : string) :
  strings.HasPrefix s (String c "")
  = match s with String b _ => Ascii.eqb c b | "" => false end.
Proof.
  destruct s as [|b s]; [reflexivity|]. simpl.
  destruct (Ascii.eqb c b); [destruct s; reflexivity | reflexivity].
Qed.

Lemma Index_from_free (c : ascii) (p suf : string) :
  free_of c p = true ->
  forall i, strings.Index_from i (p +:+ String c suf) (String c "")
            = i + Z.of_nat (String.length p).
Proof.
  induction p as [|a p IH]; intros Hfree i.
  - rewrite app_nil_l. cbn [strings.Index_from]. rewrite HasPrefix_char, Ascii.eqb_refl.
    simpl. lia.
  - simpl in Hfree. apply andb_prop in Hfree as [Ha Hp].
    rewrite app_cons. cbn [strings.Index_from]. rewrite HasPrefix_char.
    rewrite Ascii.eqb_sym. apply negb_true_iff in Ha. rewrite Ha.
    rewrite (IH Hp). simpl String.length. lia.
Qed.

Lemma Index_from_none (c : ascii) (s : string) :
  free_of c s = true -> forall i, strings.Index_from i s (String c "") = -1.
Proof.
  induction s as [|a s IH]; intros Hfree i; [reflexivity|].
  simpl in Hfree. apply andb_prop in Hfree as [Ha Hs].
  cbn [strings.Index_from]. rewrite HasPrefix_char, Ascii.eqb_sym.
  apply negb_true_iff in Ha. rewrite Ha. apply IH. exact Hs.
Qed.

Lemma first_split (c : ascii) (s : string) :
  free_of c s = true \/
  exists p suf, s = p +:+ String c suf /\ free_of c p = true.
Proof.
  induction s as [|a s IH]; [left; reflexivity|].
  destruct (Ascii.eqb_spec a c) as [->|Hne].
  - right. exists "", s. split; reflexivity.
  - assert (Ha : negb (Ascii.eqb a c) = true)
      by (apply negb_true_iff, Ascii.eqb_neq; exact Hne).
    destruct IH as [Hfree|(p & suf & -> & Hp)].
    + left. simpl. rewrite Ha, Hfree. reflexivity.
    + right. exists (String a p), suf. split; [reflexivity|].
      simpl. rewrite Ha, Hp. reflexivity.
Qed.

Lemma slice_to_app (p s : string) : strings.slice_to (String.length p) (p +:+ s) = p.
Proof.
  induction p as [|a p IH]; [reflexivity|]. rewrite app_cons. simpl. rewrite IH. reflexivity.
Qed.

Lemma cutVersion_none (pth : string) :
  free_of "#" pth = true -> cutVersion pth = ("", pth).
Proof.
  intros Hfree. unfold cutVersion, strings.Index.
  rewrite (Index_from_none "#" pth Hfree). reflexivity.
Qed.

Lemma cutVersion_at (p ver : string) :
  free_of "#" p = true -> cutVersion (p +:+ String "#" ver) = (ver, p).
Proof.
  intros Hfree. unfold cutVersion, strings.Index.
  rewrite (Index_from_free "#" p ver Hfree).
  destruct (Z.eqb_spec (0 + Z.of_nat (String.length p)) (-1)) as [Hneg|_]; [lia|].
  cbn [negb].
  replace (Z.to_nat (0 + Z.of_nat (String.length p) + 1))
    with (String.length (p +:+ "#")) by (rewrite length_app; simpl; lia).
  replace (Z.to_nat (0 + Z.of_nat (String.length p))) with (String.length p) by lia.
  rewrite slice_to_app.
  replace (p +:+ String "#" ver) with ((p +:+ "#") +:+ ver)
    by (rewrite app_assoc; reflexivity).
  rewrite slice_from_app. reflexivity.
Qed.

(** X1. [Handle] cuts its pattern at the first "#": a pattern without "#"
    is all path and has the empty version; a path without "#" followed by
    "#" and any version, which may hold further "#", is cut back into that
    path and that version; and whatever the pattern, the path part holds no
    "#" and the pattern is the path part alone or the path part, "#" and
    the version. *)
Theorem cutVersion_round_trip (pth : string) :
  (free_of "#" pth = true -> cutVersion pth = ("", pth)) /\
  (forall ver, free_of "#" pth = true ->
               cutVersion (pth +:+ String "#" ver) = (ver, pth)) /\
  free_of "#" (snd (cutVersion pth)) = true /\
  (pth = snd (cutVersion pth) /\ fst (cutVersion pth) = "" \/
   pth = snd (cutVersion pth) +:+ String "#" (fst (cutVersion pth))).
Proof.
  split; [apply cutVersion_none|]. split; [intros ver Hfree; apply cutVersion_at, Hfree|].
  destruct (first_split "#" pth) as [Hfree|(p & ver & -> & Hp)].
  - rewrite (cutVersion_none pth Hfree). split; [exact Hfree|]. left. split; reflexivity.
  - rewrite (cutVersion_at p ver Hp). split; [exact Hp|]. right. reflexivity.
Qed.

Lemma cutVersion_round_trip_witness :
  cutVersion "/x" = ("", "/x") /\ cutVersion "/x#v1#beta" = ("v1#beta", "/x").
Proof.
  split.
  - apply (proj1 (cutVersion_round_trip "/x")). reflexivity.
  - apply (proj1 (proj2 (cutVersion_round_trip "/x")) "v1#beta"). reflexivity.
Defined.

(** ** More on [splitPath] *)

Lemma FieldsFunc_tokens (p : string) :
  strings.FieldsFunc p (fun c => Ascii.eqb c "/") = nonempty_tokens p.
Proof.
  unfold strings.FieldsFunc, nonempty_tokens.
  change None with (cur_of ""). rewrite (FieldsFunc_loop_split "/" p "").
  pose proof (split_at_nonempty "/" p) as Hn.
  destruct (split_at "/" p); [congruence | reflexivity].
Qed.

Lemma splitPath_of_tokens (p : string) :
  splitPath p = match nonempty_tokens p with [] => ["/"] | w :: ws => w :: ws end.
Proof.
  unfold splitPath. rewrite FieldsFunc_tokens. destruct (nonempty_tokens p); reflexivity.
Qed.

Lemma split_at_app (sep : ascii) (a b : string) :
  split_at sep (a +:+ String sep b) = split_at sep a ++ split_at sep b.
Proof.
  induction a as [|c a IH].
  - rewrite app_nil_l. cbn [split_at]. rewrite Ascii.eqb_refl. reflexivity.
  - rewrite app_cons. cbn [split_at]. rewrite IH.
    destruct (Ascii.eqb c sep); [reflexivity|].
    pose proof (split_at_nonempty sep a) as Hn.
    destruct (split_at sep a) as [|w ws]; [congruence | reflexivity].
Qed.

Lemma nonempty_tokens_app (a b : string) :
  nonempty_tokens (a +:+ String "/" b) = nonempty_tokens a ++ nonempty_tokens b.
Proof. unfold nonempty_tokens. rewrite split_at_app. apply filter_app. Qed.

Lemma nonempty_tokens_slash (p : string) :
  nonempty_tokens (String "/" p) = nonempty_tokens p.
Proof. apply (nonempty_tokens_app "" p). Qed.

Lemma split_at_free_one (sep : ascii) (w : string) :
  free_of sep w = true -> split_at sep w = [w].
Proof.
  induction w as [|c w IH]; intros Hfree; [reflexivity|].
  simpl in Hfree. apply andb_prop in Hfree as [Hc Hw]. apply negb_true_iff in Hc.
  cbn [split_at]. rewrite Hc, (IH Hw). reflexivity.
Qed.

Lemma nonempty_tokens_join (ws : list string) :
  Forall (fun w => w <> "" /\ free_of "/" w = true) ws ->
  nonempty_tokens (join "/" ws) = ws.
Proof.
  induction 1 as [|w ws [Hne Hfree] Hws IH]; [reflexivity|].
  destruct ws as [|w' ws'].
  - cbn [join]. unfold nonempty_tokens. rewrite (split_at_free_one "/" w Hfree).
    rewrite filter_cons_True by exact Hne. reflexivity.
  - change (join "/" (w :: w' :: ws')) with (w +:+ String "/" (join "/" (w' :: ws'))).
    rewrite nonempty_tokens_app, IH. unfold nonempty_tokens.
    rewrite (split_at_free_one "/" w Hfree), filter_cons_True by exact Hne. reflexivity.
Qed.

(** X2. [splitPath] does not see a slash in front, a slash at the end or a
    doubled slash: the path with one of them has the segments of the path
    without. *)
Theorem splitPath_ignores_extra_slashes (p : string) :
  splitPath (String "/" p) = splitPath p /\
  splitPath (p +:+ "/") = splitPath p /\
  forall q, splitPath (p +:+ "//" +:+ q) = splitPath (p +:+ "/" +:+ q).
Proof.
  rewrite !splitPath_of_tokens. split; [rewrite nonempty_tokens_slash; reflexivity|]. split.
  - rewrite (nonempty_tokens_app p ""). change (nonempty_tokens "") with (@nil string).
    rewrite List.app_nil_r. reflexivity.
  - intros q. rewrite !splitPath_of_tokens.
    change (p +:+ "//" +:+ q) with (p +:+ String "/" (String "/" q)).
    change (p +:+ "/" +:+ q) with (p +:+ String "/" q).
    rewrite !nonempty_tokens_app, nonempty_tokens_slash. reflexivity.
Qed.

(** X3. Segments that are not empty and hold no slash, joined by slashes,
    split back into the same segments, with or without a slash in front. *)
Theorem splitPath_join (ws : list string) :
  ws <> [] ->
  Forall (fun w => w <> "" /\ free_of "/" w = true) ws ->
  splitPath (join "/" ws) = ws /\ splitPath (String "/" (join "/" ws)) = ws.
Proof.
  intros Hne Hws. rewrite !splitPath_of_tokens, nonempty_tokens_slash.
  rewrite (nonempty_tokens_join ws Hws). destruct ws; [congruence | split; reflexivity].
Qed.

Lemma splitPath_join_witness :
  splitPath (join "/" ["root"; ":uuid"; "item"]) = ["root"; ":uuid"; "item"].
Proof.
  apply (proj1 (splitPath_join ["root"; ":uuid"; "item"] ltac:(discriminate)
                  ltac:(repeat constructor; discriminate))).
Defined.

Lemma nonempty_tokens_good (p : string) :
  Forall (fun w => w <> "" /\ free_of "/" w = true) (nonempty_tokens p).
Proof.
  unfold nonempty_tokens. apply Forall_forall. intros w Hw.
  apply list_elem_of_filter in Hw as [Hne Hin]. split; [exact Hne|].
  pose proof (split_at_free "/" p) as Hfree.
  rewrite Forall_forall in Hfree. apply Hfree. exact Hin.
Qed.

(** X4. Every segment [splitPath] returns, the root token included, is a
    path of that one segment: splitting it gives it back. *)
Theorem splitPath_segment_fixed (p w : string) :
  In w (splitPath p) -> splitPath w = [w].
Proof.
  rewrite splitPath_of_tokens. intros Hin.
  destruct (nonempty_tokens p) as [|w0 ws] eqn:E.
  - destruct Hin as [<-|[]]. reflexivity.
  - pose proof (nonempty_tokens_good p) as Hgood. rewrite E in Hgood.
    rewrite Forall_forall in Hgood.
    destruct (Hgood w (proj2 (list_elem_of_In _ _) Hin)) as [Hne Hfree].
    rewrite splitPath_of_tokens. unfold nonempty_tokens.
    rewrite (split_at_free_one "/" w Hfree), filter_cons_True by exact Hne. reflexivity.
Qed.

Lemma splitPath_segment_fixed_witness : splitPath "hello" = ["hello"].
Proof.
  apply (splitPath_segment_fixed "/hello/world/" "hello"). left. reflexivity.
Defined.

(** ** More on the version named by the Accept header *)

Lemma occurrence_or_none (s sub : string) (n : nat) :
  (forall k, (k <= n)%nat -> ~ occurs_at s sub k) \/
  (exists k, (k <= n)%nat /\ occurs_at s sub k).
Proof.
  induction n as [|n IH].
  - destruct (decide ((0 <= String.length s)%nat /\
                      strings.HasPrefix (strings.slice_from 0 s) sub = true)) as [Hd|Hd].
    + right. exists 0%nat. split; [lia | apply occurs_at_slice; exact Hd].
    + left. intros k Hk Hocc. assert (k = 0%nat) as -> by lia.
      apply Hd, occurs_at_slice, Hocc.
  - destruct IH as [Hno|(k & Hk & Hocc)]; [|right; exists k; split; [lia | exact Hocc]].
    destruct (decide ((S n <= String.length s)%nat /\
                      strings.HasPrefix (strings.slice_from (S n) s) sub = true)) as [Hd|Hd].
    + right. exists (S n). split; [lia | apply occurs_at_slice; exact Hd].
    + left. intros k Hk Hocc. destruct (decide (k = S n)) as [->|Hne].
      * apply Hd, occurs_at_slice, Hocc.
      * apply (Hno k); [lia | exact Hocc].
Qed.

Lemma requestVersion_absent (accept : string) :
  (forall k, ~ occurs_at accept versionHeader k) -> requestVersion accept = "".
Proof.
  intros Hno. unfold requestVersion, strings.LastIndex.
  rewrite (proj1 (LastIndex_from_spec versionHeader accept 0 (-1)) Hno). reflexivity.
Qed.

Lemma requestVersion_last (accept pre suf : string) :
  accept = pre +:+ versionHeader +:+ suf ->
  (forall k, occurs_at accept versionHeader k -> (k <= String.length pre)%nat) ->
  requestVersion accept = suf.
Proof.
  intros Heq Hmax. unfold requestVersion, strings.LastIndex.
  rewrite (proj2 (LastIndex_from_spec versionHeader accept 0 (-1)) (String.length pre)).
  - destruct (Z.eqb_spec (0 + Z.of_nat (String.length pre)) (-1)) as [Hneg|_]; [lia|].
    cbn [negb]. unfold strings.len.
    replace (Z.to_nat (Z.of_nat (String.length versionHeader) + (0 + Z.of_nat (String.length pre))))
      with (String.length (pre +:+ versionHeader)) by (rewrite length_app; lia).
    rewrite Heq, <- app_assoc. apply slice_from_app.
  - exists pre, suf. split; [exact Heq | reflexivity].
  - exact Hmax.
Qed.

Lemma requestVersion_cases (accept : string) :
  (forall k, ~ occurs_at accept versionHeader k) /\ requestVersion accept = "" \/
  exists pre suf,
    accept = pre +:+ versionHeader +:+ suf /\
    (forall k, occurs_at accept versionHeader k -> (k <= String.length pre)%nat) /\
    requestVersion accept = suf.
Proof.
  destruct (occurrence_or_none accept versionHeader (String.length accept))
    as [Hno|Hsome].
  - assert (Hno' : forall k, ~ occurs_at accept versionHeader k).
    { intros k Hocc. apply (Hno k); [|exact Hocc]. apply occurs_at_slice in Hocc. tauto. }
    left. split; [exact Hno' | apply requestVersion_absent, Hno'].
  - destruct (last_occurrence accept versionHeader (String.length accept) Hsome)
      as (k0 & _ & (pre & suf & Heq & Hlen) & Hmax).
    assert (Hmax' : forall j, occurs_at accept versionHeader j -> (j <= String.length pre)%nat).
    { intros j Hj. rewrite Hlen. apply Hmax; [|exact Hj]. apply occurs_at_slice in Hj. tauto. }
    right. exists pre, suf. split; [exact Heq|]. split; [exact Hmax'|].
    apply (requestVersion_last accept pre suf Heq Hmax').
Qed.

(** X5. The version [ServeHTTP] reads off an Accept header is an end of that
    header in which the prefix "application/vnd." does not occur; read as a
    header itself it names no version. *)
Theorem requestVersion_is_prefix_free_suffix (accept : string) :
  (exists pre, accept = pre +:+ requestVersion accept) /\
  (forall k, ~ occurs_at (requestVersion accept) versionHeader k) /\
  requestVersion (requestVersion accept) = "".
Proof.
  assert (Hmain : (exists pre, accept = pre +:+ requestVersion accept) /\
                  forall k, ~ occurs_at (requestVersion accept) versionHeader k).
  { destruct (requestVersion_cases accept) as [[Hno ->]|(pre & suf & Heq & Hmax & ->)].
    - split; [exists accept; rewrite app_nil_r; reflexivity|].
      intros k (pre & suf & H & _). apply (f_equal String.length) in H.
      rewrite !length_app in H. simpl in H. lia.
    - split; [exists (pre +:+ versionHeader); rewrite app_assoc; exact Heq|].
      intros k (pre' & suf' & Hsuf & Hlen).
      assert (Hocc : occurs_at accept versionHeader
                       (String.length (pre +:+ versionHeader +:+ pre'))).
      { exists (pre +:+ versionHeader +:+ pre'), suf'. split; [|reflexivity].
        rewrite Heq, Hsuf, !app_assoc. reflexivity. }
      apply Hmax in Hocc. rewrite !length_app in Hocc. simpl in Hocc. lia. }
  destruct Hmain as [Hsuf Hfree]. split; [exact Hsuf|]. split; [exact Hfree|].
  apply requestVersion_absent, Hfree.
Qed.

(** ** More on method resolution *)

Lemma checkMethod_loop_app (hs extra : list MethodHandler.t) (method : string) :
  checkMethod_loop (hs ++ extra) method
  = match checkMethod_loop hs method with
    | Some h => Some h
    | None => checkMethod_loop extra method
    end.
Proof.
  induction hs as [|e hs IH]; [reflexivity|]. simpl.
  destruct (String.eqb (MethodHandler.Method e) "ALL"); [reflexivity|].
  destruct (String.eqb (MethodHandler.Method e) method); [reflexivity | exact IH].
Qed.

(** X6. Entries added at the end of a handler table change nothing for a
    method the table already answered, by an entry of that method or of
    "ALL": the method resolves to the same handler as before.  For a method
    the table did not answer, the resolution is that of the added entries
    alone. *)
Theorem checkMethod_stable_under_append (v : Router) (node node' : Trie)
    (extra : list MethodHandler.t) (method : string) :
  Handler node' = Handler node ++ extra ->
  ((exists e, In e (Handler node) /\
              (MethodHandler.Method e = "ALL" \/ MethodHandler.Method e = method)) ->
   checkMethod v node' method = checkMethod v node method) /\
  ((forall e, In e (Handler node) ->
              MethodHandler.Method e <> "ALL" /\ MethodHandler.Method e <> method) ->
   forall only_extra, Handler only_extra = extra ->
                      checkMethod v node' method = checkMethod v only_extra method).
Proof.
  intros Hnode'. unfold checkMethod. rewrite Hnode', checkMethod_loop_app. split.
  - intros (e & Hin & He).
    destruct (checkMethod_loop (Handler node) method) as [h|] eqn:Hloop; [reflexivity|].
    destruct (proj1 (checkMethod_loop_none _ _) Hloop e Hin) as [H1 H2].
    destruct He; contradiction.
  - intros Hnone only_extra ->.
    rewrite (proj2 (checkMethod_loop_none _ _) Hnone). reflexivity.
Qed.

Lemma checkMethod_stable_under_append_witness :
  checkMethod New
    (mkTrie [MethodHandler.mk "GET" "" (UserHandler 1);
             MethodHandler.mk "GET" "v2" (UserHandler 2)] false false [] "x") "GET"
  = checkMethod New
      (mkTrie [MethodHandler.mk "GET" "" (UserHandler 1)] false false [] "x") "GET".
Proof.
  apply (proj1 (checkMethod_stable_under_append New
                  (mkTrie [MethodHandler.mk "GET" "" (UserHandler 1)] false false [] "x")
                  (mkTrie [MethodHandler.mk "GET" "" (UserHandler 1);
                           MethodHandler.mk "GET" "v2" (UserHandler 2)] false false [] "x")
                  [MethodHandler.mk "GET" "v2" (UserHandler 2)] "GET" eq_refl)).
  exists (MethodHandler.mk "GET" "" (UserHandler 1)).
  split; [left; reflexivity | right; reflexivity].
Defined.

(** ** More on [match] *)

Section MatchFacts.

Variable Get : Trie -> list string -> string -> Trie * list string * bool.
Variable v : Router.
Variables method version : string.

(** What a recursive call of [match] is made on. *)
Lemma match_step_descend_inv (node : Trie) (p : list string) (leaf : bool)
    (params : Params) (node' : Trie) (p' : list string) (leaf' : bool)
    (params' : Params) :
  match_step Get v node p leaf params method version = Descend node' p' leaf' params' ->
  exists n seg rest rx,
    p = seg :: rest /\ In n (Node node) /\
    strings.HasPrefix (path n) ":" = true /\
    dynamicRoutes v !! path n = Some rx /\ MatchString rx seg = true /\
    params' = params ++ [(path n, seg)] /\
    Get node (path n :: rest) version = (node', p', leaf').
Proof.
  unfold match_step.
  destruct ((0 <? Z.of_nat (length (Handler node))) && leaf); [discriminate|].
  assert (Hfall : forall c, fallback v node p params method c
                            <> Descend node' p' leaf' params').
  { intros c. unfold fallback.
    destruct (if c then findCatchall (Node node) else None); [|discriminate].
    destruct p; discriminate. }
  destruct (HasRegex node); [|intros H; destruct (Hfall _ H)].
  destruct (tryDynamic (dynamicRoutes v) (Node node) p) as [n seg rest| |k] eqn:Hdyn;
    [|intros H; destruct (Hfall _ H)|discriminate].
  apply tryDynamic_hit_inv in Hdyn as (Hp & pre & post & rx & Hnode & _ & Hn & Hrx & Hm).
  destruct (Get node (path n :: rest) version) as [[t' q'] l'] eqn:HGet.
  intros [= <- <- <- <-]. exists n, seg, rest, rx.
  repeat split; try assumption.
  rewrite Hnode. apply in_or_app. right. left. reflexivity.
Qed.

Lemma match_step_frame (node : Trie) (p : list string) (leaf : bool) (params : Params) :
  match_step Get v node p leaf params method version
  = match match_step Get v node p leaf [] method version with
    | Done b h ps => Done b h (params ++ ps)
    | Descend node' p' leaf' ps => Descend node' p' leaf' (params ++ ps)
    | Crash k => Crash k
    end.
Proof.
  unfold match_step, fallback, Params_Add.
  destruct ((0 <? Z.of_nat (length (Handler node))) && leaf);
    [rewrite List.app_nil_r; reflexivity|].
  assert (Hfall : forall c : bool,
             match (if c then findCatchall (Node node) else None) with
             | Some n =>
                 match p with
                 | seg :: _ => Done CatchAll (checkMethod v n method) (params ++ [("*", seg)])
                 | [] => Crash IndexOutOfRange
                 end
             | None => Done NoRoute (notFound v) params
             end
             = match
                 match (if c then findCatchall (Node node) else None) with
                 | Some n =>
                     match p with
                     | seg :: _ => Done CatchAll (checkMethod v n method) ([] ++ [("*", seg)])
                     | [] => Crash IndexOutOfRange
                     end
                 | None => Done NoRoute (notFound v) []
                 end
               with
               | Done b h ps => Done b h (params ++ ps)
               | Descend node' p' leaf' ps => Descend node' p' leaf' (params ++ ps)
               | Crash k => Crash k
               end).
  { intros c. destruct (if c then findCatchall (Node node) else None);
      [destruct p; reflexivity | rewrite List.app_nil_r; reflexivity]. }
  destruct (HasRegex node); [|apply Hfall].
  destruct (tryDynamic (dynamicRoutes v) (Node node) p) as [n seg rest| |k];
    [|apply Hfall|reflexivity].
  destruct (Get node (path n :: rest) version) as [[? ?] ?]. reflexivity.
Qed.

(** X7. The handler [match] chooses does not depend on the parameters it is
    given, which it only passes on: called with parameters, [match] ends as
    it does called with none, and returns the given parameters followed by
    those the call with none returns. *)
Theorem match_params_frame (fuel : nat) :
  forall node p leaf params,
    match_ Get fuel v node p leaf params method version
    = with_params params (match_ Get fuel v node p leaf [] method version).
Proof.
  induction fuel as [|fuel IH]; intros node p leaf params; [reflexivity|].
  cbn [match_]. rewrite match_step_frame.
  destruct (match_step Get v node p leaf [] method version) as [b h ps|node' p' leaf' ps|k];
    [reflexivity| |reflexivity].
  rewrite (IH node' p' leaf' (params ++ ps)), (IH node' p' leaf' ps).
  destruct (match_ Get fuel v node' p' leaf' [] method version) as [[h qs]| |];
    [|reflexivity|reflexivity].
  cbn [with_params]. rewrite List.app_assoc. reflexivity.
Qed.


Lemma sub_trans (a b c : Trie) : sub a b -> sub b c -> sub a c.
Proof.
  intros Hab Hbc. induction Hbc as [b c Hin|b n c Hin _ IH].
  - exact (sub_deeper a b c Hin Hab).
  - exact (sub_deeper a n c Hin (IH Hab)).
Qed.

Lemma checkMethod_cases (n : Trie) :
  checkMethod v n method = notAllowed v \/
  exists e, In e (Handler n) /\
            (MethodHandler.Method e = "ALL" \/ MethodHandler.Method e = method) /\
            checkMethod v n method = MethodHandler.Handler e.
Proof.
  unfold checkMethod. induction (Handler n) as [|e hs IH]; [left; reflexivity|]. simpl.
  destruct (String.eqb_spec (MethodHandler.Method e) "ALL") as [Ha|_].
  { right. exists e. split; [left; reflexivity|]. split; [left; exact Ha | reflexivity]. }
  destruct (String.eqb_spec (MethodHandler.Method e) method) as [Hm|_].
  { right. exists e. split; [left; reflexivity|]. split; [right; exact Hm | reflexivity]. }
  destruct IH as [IH|(e' & Hin & He' & IH)]; [left; exact IH|].
  right. exists e'. split; [right; exact Hin|]. split; assumption.
Qed.

(** X9. When [Get] answers the node it is called on or a node below it, the
    handler [match] returns is the NotFound responder, the NotAllowed
    responder, or the handler of a table entry of the node or of a node
    below it, and that entry's method is "ALL" or the request's. *)
Theorem match_handler_provenance (fuel : nat) :
  within Get ->
  forall node p leaf params h ps,
    match_ Get fuel v node p leaf params method version = Returns (h, ps) ->
    h = notFound v \/ h = notAllowed v \/
    exists n e,
      (n = node \/ sub n node) /\ In e (Handler n) /\
      (MethodHandler.Method e = "ALL" \/ MethodHandler.Method e = method) /\
      h = MethodHandler.Handler e.
Proof.
  intros Hwithin.
  assert (Hcheck : forall node n, n = node \/ sub n node ->
             checkMethod v n method = notFound v \/ checkMethod v n method = notAllowed v \/
             exists n0 e,
               (n0 = node \/ sub n0 node) /\ In e (Handler n0) /\
               (MethodHandler.Method e = "ALL" \/ MethodHandler.Method e = method) /\
               checkMethod v n method = MethodHandler.Handler e).
  { intros node n Hn. destruct (checkMethod_cases n) as [H|(e & Hin & He & H)].
    - right. left. exact H.
    - right. right. exists n, e. repeat split; assumption. }
  induction fuel as [|fuel IH]; intros node p leaf params h ps Hrun; [discriminate|].
  cbn [match_] in Hrun.
  destruct (match_step Get v node p leaf params method version)
    as [b h0 ps0|node' p' leaf' params'|k] eqn:Hstep; [| |discriminate].
  - injection Hrun as -> ->.
    pose proof (match_step_done Get v method version _ _ _ _ _ _ _ Hstep) as Hans.
    destruct b; cbn [answer_of] in Hans.
    + destruct Hans as [-> _]. apply Hcheck. left. reflexivity.
    + destruct Hans as (n & seg & rest & Hfind & _ & -> & _).
      apply Hcheck. right. apply sub_child.
      apply findCatchall_inv in Hfind as (pre & post & -> & _).
      apply in_or_app. right. left. reflexivity.
    + destruct Hans as [-> _]. left. reflexivity.
  - apply match_step_descend_inv in Hstep as (n & seg & rest & rx & _ & _ & _ & _ & _ & _ & HGet).
    pose proof (Hwithin node (path n :: rest) version) as Hsub. rewrite HGet in Hsub.
    cbn [fst] in Hsub.
    destruct (IH _ _ _ _ _ _ Hrun) as [H|[H|(n0 & e & Hn0 & Hin & He & H)]];
      [left; exact H | right; left; exact H|].
    right. right. exists n0, e. split; [|repeat split; assumption].
    destruct Hn0 as [->|Hn0]; [exact Hsub|]. right.
    destruct Hsub as [<-|Hsub]; [exact Hn0 | exact (sub_trans _ _ _ Hn0 Hsub)].
Qed.

(** X10. When [Get] answers a node strictly below for a path that starts
    with a child's token, [match] returns at most one parameter more than
    it was given for every level of the trie from its node down. *)
Theorem match_params_bound (fuel : nat) :
  descends Get ->
  forall node p leaf params h ps,
    match_ Get fuel v node p leaf params method version = Returns (h, ps) ->
    (length ps <= length params + height node)%nat.
Proof.
  intros Hdesc. induction fuel as [|fuel IH]; intros node p leaf params h ps Hrun;
    [discriminate|].
  assert (Hpos : (1 <= height node)%nat) by (destruct node; simpl; lia).
  cbn [match_] in Hrun.
  destruct (match_step Get v node p leaf params method version)
    as [b h0 ps0|node' p' leaf' params'|k] eqn:Hstep; [| |discriminate].
  - injection Hrun as -> ->.
    pose proof (match_step_done Get v method version _ _ _ _ _ _ _ Hstep) as Hans.
    destruct b; cbn [answer_of] in Hans.
    + destruct Hans as [_ ->]. lia.
    + destruct Hans as (n & seg & rest & _ & _ & _ & ->).
      rewrite List.length_app. simpl. lia.
    + destruct Hans as [_ ->]. lia.
  - destruct (match_step_descend Get Hdesc v method version _ _ _ _ _ _ _ _ Hstep) as [_ Hsub].
    apply height_sub in Hsub.
    apply match_step_descend_inv in Hstep as (n & seg & rest & rx & _ & _ & _ & _ & _ & -> & _).
    specialize (IH _ _ _ _ _ _ Hrun). rewrite List.length_app in IH. simpl in IH. lia.
Qed.

(** X11. On a node without children [match] returns at once, whatever the
    flags of the node and whatever the path, the empty path included: the
    method resolution of the node at an exact leaf with a table, else the
    NotFound responder, with the parameters it was given. *)
Theorem match_childless_node (fuel : nat) (node : Trie) (p : list string)
    (leaf : bool) (params : Params) :
  Node node = [] ->
  match_ Get (S fuel) v node p leaf params method version
  = Returns (if (0 <? Z.of_nat (length (Handler node))) && leaf
             then checkMethod v node method else notFound v, params).
Proof.
  intros Hnode. cbn [match_]. unfold match_step, fallback. rewrite Hnode.
  destruct ((0 <? Z.of_nat (length (Handler node))) && leaf); [reflexivity|].
  cbn [tryDynamic findCatchall].
  destruct (HasRegex node), (HasCatchall node); reflexivity.
Qed.

End MatchFacts.

Lemma Trie_Get_within : within Trie_Get.
Proof.
  intros t p version. destruct p as [|key newpath]; [left; reflexivity|].
  destruct (Trie_Get_below (key :: newpath) t version) as (t' & p' & leaf' & -> & _ & H);
    [discriminate | exact H].
Qed.


Lemma match_handler_provenance_witness :
  UserHandler 1 = notFound demo \/ UserHandler 1 = notAllowed demo \/
  exists n e,
    (n = demo_a \/ sub n demo_a) /\ In e (Handler n) /\
    (MethodHandler.Method e = "ALL" \/ MethodHandler.Method e = "GET") /\
    UserHandler 1 = MethodHandler.Handler e.
Proof.
  apply (match_handler_provenance Trie_Get demo "GET" "" 4 Trie_Get_within demo_a
           ["42"; "b"] false [] (UserHandler 1) [(":id", "42")]).
  reflexivity.
Defined.

Lemma match_params_bound_witness :
  (length [(":id", "42")] <= length (@nil (string * string)) + height demo_a)%nat.
Proof.
  apply (match_params_bound Trie_Get demo "GET" "" 4 Trie_Get_descends demo_a
           ["42"; "b"] false [] (UserHandler 1) [(":id", "42")]).
  reflexivity.
Defined.

Lemma match_childless_node_witness :
  match_ Trie_Get 1 New (routes New) [] false [] "GET" ""
  = Returns (http_NotFoundHandler, []).
Proof.
  apply (match_childless_node Trie_Get New "GET" "" 0 (routes New) [] false []).
  reflexivity.
Defined.

(** ** More on registration and lookup *)

Lemma cutVersion_slash (pth : string) :
  cutVersion (String "/" pth)
  = (fst (cutVersion pth), String "/" (snd (cutVersion pth))).
Proof.
  destruct (first_split "#" pth) as [Hfree|(p & ver & -> & Hp)].
  - rewrite (cutVersion_none pth Hfree), (cutVersion_none (String "/" pth)); [reflexivity|].
    simpl. exact Hfree.
  - rewrite (cutVersion_at p ver Hp).
    change (String "/" (p +:+ String "#" ver)) with (String "/" p +:+ String "#" ver).
    rewrite (cutVersion_at (String "/" p) ver); [reflexivity|]. simpl. exact Hp.
Qed.

Lemma splitPath_slash_front (p : string) : splitPath (String "/" p) = splitPath p.
Proof. rewrite !splitPath_of_tokens, nonempty_tokens_slash. reflexivity. Qed.

Lemma splitPath_slash_end (p : string) : splitPath (p +:+ "/") = splitPath p.
Proof.
  rewrite !splitPath_of_tokens, (nonempty_tokens_app p "").
  change (nonempty_tokens "") with (@nil string). rewrite List.app_nil_r. reflexivity.
Qed.

Section RegistrationFacts.

Variable Get : Trie -> list string -> string -> Trie * list string * bool.
Variable Set_ : Trie -> list string -> http_Handler -> string -> string
                -> option error * Trie.

(** X12. A slash in front of a pattern makes no difference to [Handle] and
    [HandleFunc], with or without a version after "#"; a slash in front or
    at the end of a request path makes no difference to the lookup. *)
Theorem leading_and_trailing_slash (pth urlPath : string) (handler : http_Handler)
    (httpMethods : list string) (fuel : nat) (method version : string) (v : Router) :
  Handle Set_ (String "/" pth) handler httpMethods v
  = Handle Set_ pth handler httpMethods v /\
  HandleFunc Set_ (String "/" pth) handler httpMethods v
  = HandleFunc Set_ pth handler httpMethods v /\
  Match Get fuel (String "/" urlPath) method version v
  = Match Get fuel urlPath method version v /\
  Match Get fuel (urlPath +:+ "/") method version v
  = Match Get fuel urlPath method version v.
Proof.
  assert (HH : Handle Set_ (String "/" pth) handler httpMethods v
               = Handle Set_ pth handler httpMethods v).
  { rewrite !Handle_unfold, cutVersion_slash. cbn [fst snd].
    rewrite splitPath_slash_front. reflexivity. }
  split; [exact HH|]. split; [exact HH|]. unfold Match.
  rewrite splitPath_slash_front, splitPath_slash_end. split; reflexivity.
Qed.

(** X14. A pattern that passes the check of its dynamic segments passes it
    on every router whose registry holds at least the same names: on such a
    router [Handle] goes on to [Trie.Set]. *)
Theorem Handle_check_monotone (pth : string) (handler : http_Handler)
    (httpMethods : list string) (v v' : Router) :
  dynamicRoutes v ⊆ dynamicRoutes v' ->
  (forall p, In p (splitPath (snd (cutVersion pth))) ->
             strings.HasPrefix p ":" = true -> is_Some (dynamicRoutes v !! p)) ->
  Handle Set_ pth handler httpMethods v'
  = let '(err, t) := Set_ (routes v') (splitPath (snd (cutVersion pth))) handler
                       (methodsOf httpMethods) (fst (cutVersion pth)) in
    (err, set_routes v' t).
Proof.
  intros Hsub Hall. rewrite Handle_unfold.
  rewrite (proj2 (unknownDynamic_None (dynamicRoutes v') _)); [reflexivity|].
  intros p Hin Hp. destruct (Hall p Hin Hp) as [rx Hrx].
  exists rx. exact (lookup_weaken _ _ _ _ Hrx Hsub).
Qed.

(** X15. The method list [Handle] hands to [Trie.Set] is never blank: it is
    "ALL" or the first method argument, and then that argument is not white
    space only.  Method arguments after the first are not read. *)
Theorem Handle_methods (pth : string) (handler : http_Handler)
    (httpMethods : list string) (v : Router) :
  strings.TrimSpace_nonempty (methodsOf httpMethods) = true /\
  (methodsOf httpMethods = "ALL" \/
   exists m rest, httpMethods = m :: rest /\ methodsOf httpMethods = m /\
                  strings.TrimSpace_nonempty m = true) /\
  forall m rest,
    Handle Set_ pth handler (m :: rest) v = Handle Set_ pth handler [m] v.
Proof.
  split; [|split].
  - destruct httpMethods as [|m rest]; [reflexivity|]. unfold methodsOf.
    destruct (strings.TrimSpace_nonempty m) eqn:E; [exact E | reflexivity].
  - destruct httpMethods as [|m rest]; [left; reflexivity|]. unfold methodsOf.
    destruct (strings.TrimSpace_nonempty m) eqn:E; [|left; reflexivity].
    right. exists m, rest. repeat split. exact E.
  - intros m rest. rewrite !Handle_unfold. reflexivity.
Qed.

End RegistrationFacts.

Lemma Handle_check_monotone_witness :
  Handle Trie_Set "/a/:id/c" (UserHandler 5) [] siblings
  = (let '(err, t) := Trie_Set (routes siblings) ["a"; ":id"; "c"] (UserHandler 5) "ALL" "" in
     (err, set_routes siblings t)).
Proof.
  apply (Handle_check_monotone Trie_Set "/a/:id/c" (UserHandler 5) [] demo siblings).
  - change (dynamicRoutes demo ⊆ <[":any" := anything]> (dynamicRoutes demo)).
    apply insert_subseteq. reflexivity.
  - intros p [<-|[<-|[<-|[]]]] Hp; try discriminate. exists digits. reflexivity.
Defined.

(** ** The root token, versioned patterns and the fresh router *)

Lemma only_slash_tokens (p : string) : only "/" p = true <-> nonempty_tokens p = [].
Proof. symmetry. apply nonempty_tokens_nil. Qed.

(** X16. The root token "/" is what [splitPath] returns for the empty path
    and for a path of slashes only, and it appears in the result for no
    other path, not even among several segments. *)
Theorem splitPath_root_token (p : string) :
  (In "/" (splitPath p) <-> only "/" p = true) /\
  (only "/" p = true -> splitPath p = ["/"]).
Proof.
  rewrite splitPath_of_tokens, only_slash_tokens.
  pose proof (nonempty_tokens_good p) as Hgood.
  destruct (nonempty_tokens p) as [|w ws] eqn:E.
  - split; [split; [reflexivity | intros _; left; reflexivity] | reflexivity].
  - split; [|discriminate]. split; [|discriminate].
    intros Hin. rewrite Forall_forall in Hgood.
    destruct (Hgood "/" (proj2 (list_elem_of_In _ _) Hin)) as [_ Hfree]. discriminate.
Qed.

Lemma sub_has_child (t' t : Trie) : sub t' t -> Node t <> [].
Proof. intros H Hnil. destruct H as [n t Hin|t' n t Hin _]; rewrite Hnil in Hin; destruct Hin. Qed.

Lemma match_step_childless
    (Get : Trie -> list string -> string -> Trie * list string * bool)
    (v : Router) (node : Trie) (p : list string) (leaf : bool) (params : Params)
    (method version : string) :
  Node node = [] -> Handler node = [] ->
  match_step Get v node p leaf params method version = Done NoRoute (notFound v) params.
Proof.
  intros Hnode Hh. unfold match_step, fallback. rewrite Hnode, Hh.
  cbn [length Z.of_nat Z.ltb Z.compare andb tryDynamic findCatchall].
  destruct (HasRegex node), (HasCatchall node); reflexivity.
Qed.

Section Composition.

Variable Get : Trie -> list string -> string -> Trie * list string * bool.
Variable Set_ : Trie -> list string -> http_Handler -> string -> string
                -> option error * Trie.

(** X17. A pattern made of a path without "#", then "#", then a version:
    when every segment of the path that starts with ":" is registered,
    [Handle] hands to [Trie.Set] the segments of the path and the version
    as written, which the check of the dynamic segments does not read, and
    returns the error of [Trie.Set]. *)
Theorem Handle_versioned_pattern (p ver : string) (handler : http_Handler)
    (httpMethods : list string) (v : Router) :
  free_of "#" p = true ->
  (forall q, In q (splitPath p) -> strings.HasPrefix q ":" = true ->
             is_Some (dynamicRoutes v !! q)) ->
  Handle Set_ (p +:+ String "#" ver) handler httpMethods v
  = (fst (Set_ (routes v) (splitPath p) handler (methodsOf httpMethods) ver),
     set_routes v (snd (Set_ (routes v) (splitPath p) handler (methodsOf httpMethods) ver))).
Proof.
  intros Hfree Hall. rewrite Handle_unfold, (cutVersion_at p ver Hfree). cbn [fst snd].
  rewrite (proj2 (unknownDynamic_None (dynamicRoutes v) (splitPath p)) Hall).
  destruct (Set_ (routes v) (splitPath p) handler (methodsOf httpMethods) ver). reflexivity.
Qed.

(** X18. On the router [New] returns, when [Get] answers the node it is
    called on or a node below it, every request path, method and version is
    answered by the default NotFound responder and no parameters. *)
Theorem New_answers_not_found (fuel : nat) (urlPath method version : string) :
  within Get ->
  Match Get (S fuel) urlPath method version New
  = (Returns (http_NotFoundHandler, []), New).
Proof.
  intros Hwithin. unfold Match.
  pose proof (Hwithin (routes New) (splitPath urlPath) version) as Hsub.
  destruct (Get (routes New) (splitPath urlPath) version) as [[node p] leaf].
  cbn [fst] in Hsub. destruct Hsub as [->|Hsub].
  - cbn [match_]. rewrite match_step_childless by reflexivity. reflexivity.
  - exfalso. exact (sub_has_child _ _ Hsub eq_refl).
Qed.

End Composition.

Lemma Handle_versioned_pattern_witness :
  Handle Trie_Set "/a/:id/b#v2:beta" (UserHandler 9) ["GET"] demo
  = (fst (Trie_Set (routes demo) ["a"; ":id"; "b"] (UserHandler 9) "GET" "v2:beta"),
     set_routes demo
       (snd (Trie_Set (routes demo) ["a"; ":id"; "b"] (UserHandler 9) "GET" "v2:beta"))).
Proof.
  apply (Handle_versioned_pattern Trie_Set "/a/:id/b" "v2:beta" (UserHandler 9) ["GET"] demo).
  - reflexivity.
  - intros q [<-|[<-|[<-|[]]]] Hq; try discriminate. exists digits. reflexivity.
Defined.

Lemma New_answers_not_found_witness :
  Match Trie_Get 1 "/a/42/b" "GET" "" New = (Returns (http_NotFoundHandler, []), New).
Proof. apply (New_answers_not_found Trie_Get 0 "/a/42/b" "GET" "" Trie_Get_within). Defined.

(** ** When [match] panics *)

Lemma tryDynamic_empty_path (dyn : dynamicSet) (children : list Trie) :
  tryDynamic dyn children []
  = if existsb (fun n => strings.HasPrefix (path n) ":") children
    then Fault IndexOutOfRange else Miss.
Proof.
  induction children as [|n children IH]; [reflexivity|]. simpl.
  destruct (strings.HasPrefix (path n) ":"); [reflexivity | exact IH].
Qed.

Lemma findCatchall_existsb (children : list Trie) :
  match findCatchall children with Some _ => true | None => false end
  = existsb (fun n => String.eqb (path n) "*") children.
Proof.
  induction children as [|n children IH]; [reflexivity|]. simpl.
  destruct (String.eqb (path n) "*"); [reflexivity | exact IH].
Qed.

Lemma tryDynamic_fault (dyn : dynamicSet) (children : list Trie)
    (seg : string) (rest : list string) (k : panic) :
  tryDynamic dyn children (seg :: rest) = Fault k <->
  k = NilDereference /\
  exists pre n post,
    children = pre ++ n :: post /\
    strings.HasPrefix (path n) ":" = true /\ dyn !! path n = None /\
    forall c, In c pre -> strings.HasPrefix (path c) ":" = true ->
              exists rx, dyn !! path c = Some rx /\ MatchString rx seg = false.
Proof.
  induction children as [|c children IH]; simpl.
  - split; [discriminate|]. intros (_ & pre & n & post & H & _). destruct pre; discriminate.
  - assert (Hcons : forall pre n post,
               children = pre ++ n :: post -> c :: children = (c :: pre) ++ n :: post)
      by (intros pre n post ->; reflexivity).
    destruct (strings.HasPrefix (path c) ":") eqn:Hc;
      [destruct (dyn !! path c) as [rx|] eqn:Hrx;
       [destruct (MatchString rx seg) eqn:Hm|]|].
    + split; [discriminate|]. intros (_ & pre & n & post & H & Hn & Hnone & Hpre).
      destruct pre as [|c' pre]; simpl in H; injection H as -> ->; [congruence|].
      destruct (Hpre c' (or_introl eq_refl) Hc) as (rx' & Hrx' & Hm'). congruence.
    + rewrite IH. split.
      * intros (Hk & pre & n & post & H & Hn & Hnone & Hpre). split; [exact Hk|].
        exists (c :: pre), n, post. split; [apply Hcons, H|]. split; [exact Hn|].
        split; [exact Hnone|].
        intros c' [<-|Hin] Hc'; [exists rx; split; assumption | apply Hpre; assumption].
      * intros (Hk & pre & n & post & H & Hn & Hnone & Hpre). split; [exact Hk|].
        destruct pre as [|c' pre]; simpl in H; injection H as -> ->; [congruence|].
        exists pre, n, post. repeat split; try assumption.
        intros c'' Hin. apply Hpre. right. exact Hin.
    + split.
      * intros [= <-]. split; [reflexivity|]. exists [], c, children.
        repeat split; try assumption. intros c' [].
      * intros (-> & _). reflexivity.
    + rewrite IH. split.
      * intros (Hk & pre & n & post & H & Hn & Hnone & Hpre). split; [exact Hk|].
        exists (c :: pre), n, post. split; [apply Hcons, H|]. split; [exact Hn|].
        split; [exact Hnone|].
        intros c' [<-|Hin] Hc'; [congruence | apply Hpre; assumption].
      * intros (Hk & pre & n & post & H & Hn & Hnone & Hpre). split; [exact Hk|].
        destruct pre as [|c' pre]; simpl in H; injection H as -> ->; [congruence|].
        exists pre, n, post. repeat split; try assumption.
        intros c'' Hin. apply Hpre. right. exact Hin.
Qed.

Section Panics.

Variable Get : Trie -> list string -> string -> Trie * list string * bool.
Variable v : Router.
Variables method version : string.

(** X19. What [match] does with an empty path: at an exact leaf with a table
    it resolves the method; otherwise it panics on [path[0]] when the node is
    flagged for dynamic children and has one, or is flagged for a catch-all
    and has a "*" child, and returns the NotFound responder when neither
    holds.  It never commits a child and never returns through the
    catch-all. *)
Theorem match_on_empty_path (fuel : nat) (node : Trie) (leaf : bool) (params : Params) :
  match_ Get (S fuel) v node [] leaf params method version
  = if (0 <? Z.of_nat (length (Handler node))) && leaf then
      Returns (checkMethod v node method, params)
    else if HasRegex node
              && existsb (fun n => strings.HasPrefix (path n) ":") (Node node)
            || HasCatchall node
               && existsb (fun n => String.eqb (path n) "*") (Node node)
    then Panics IndexOutOfRange
    else Returns (notFound v, params).
Proof.
  cbn [match_]. unfold match_step, fallback.
  destruct ((0 <? Z.of_nat (length (Handler node))) && leaf); [reflexivity|].
  rewrite tryDynamic_empty_path, <- findCatchall_existsb.
  destruct (HasRegex node), (HasCatchall node); cbn [andb orb];
    try destruct (existsb (fun n => strings.HasPrefix (path n) ":") (Node node));
    cbn [andb orb]; try destruct (findCatchall (Node node)); reflexivity.
Qed.

(** X20. With a segment in hand, one call of [match] panics exactly when it
    is not at an exact leaf, the node is flagged for dynamic children, and
    in the order of the children a dynamic child whose token is not in the
    registry comes before any dynamic child whose pattern accepts the
    segment; the panic is then the call of [MatchString] on a nil pattern. *)
Theorem match_step_panics_iff (node : Trie) (seg : string) (rest : list string)
    (leaf : bool) (params : Params) (k : panic) :
  match_step Get v node (seg :: rest) leaf params method version = Crash k <->
  k = NilDereference /\
  (0 <? Z.of_nat (length (Handler node))) && leaf = false /\
  HasRegex node = true /\
  exists pre n post,
    Node node = pre ++ n :: post /\
    strings.HasPrefix (path n) ":" = true /\ dynamicRoutes v !! path n = None /\
    forall c, In c pre -> strings.HasPrefix (path c) ":" = true ->
              exists rx, dynamicRoutes v !! path c = Some rx /\
                         MatchString rx seg = false.
Proof.
  unfold match_step.
  assert (Hfall : forall c : bool,
             fallback v node (seg :: rest) params method c <> Crash k).
  { intros c. unfold fallback.
    destruct (if c then findCatchall (Node node) else None); discriminate. }
  destruct ((0 <? Z.of_nat (length (Handler node))) && leaf).
  { split; [discriminate | intros (_ & H & _); discriminate]. }
  destruct (HasRegex node).
  2:{ split; [intros H; destruct (Hfall _ H) | intros (_ & _ & H & _); discriminate]. }
  pose proof (tryDynamic_fault (dynamicRoutes v) (Node node) seg rest k) as Hfault.
  destruct (tryDynamic (dynamicRoutes v) (Node node) (seg :: rest)) as [n s r| |k'].
  - destruct (Get node (path n :: r) version) as [[? ?] ?].
    split; [discriminate|]. intros (Hk & _ & _ & H).
    assert (Hit n s r = Fault k) by (apply Hfault; split; assumption). discriminate.
  - split; [intros H; destruct (Hfall _ H)|]. intros (Hk & _ & _ & H).
    assert (Miss = Fault k) by (apply Hfault; split; assumption). discriminate.
  - split.
    + intros [= ->]. destruct (proj1 Hfault eq_refl) as [Hk H].
      split; [exact Hk|]. split; [reflexivity|]. split; [reflexivity | exact H].
    + intros (Hk & _ & _ & H).
      assert (Hf : Fault k' = Fault k) by (apply Hfault; split; assumption).
      injection Hf as ->. reflexivity.
Qed.

End Panics.

Lemma match_step_panics_iff_witness :
  match_step Trie_Get New
    (mkTrie [] false true [mkTrie [] false false [] ":id"] "") ["42"] false [] "GET" ""
  = Crash NilDereference.
Proof.
  apply (proj2 (match_step_panics_iff Trie_Get New "GET" ""
                  (mkTrie [] false true [mkTrie [] false false [] ":id"] "")
                  "42" [] false [] NilDereference)).
  split; [reflexivity|]. split; [reflexivity|]. split; [reflexivity|].
  exists [], (mkTrie [] false false [] ":id"), [].
  split; [reflexivity|]. split; [reflexivity|]. split; [reflexivity|]. intros c [].
Defined.
